(** * evogil: IBEA and SMS-EMOA selection machinery

    A shallow embedding of [algorithms/IBEA/IBEA.py] and
    [ep/smsemoa/smsemoa.py].

    Modelling conventions.
    - Python objects compared and hashed by identity ([Individual]) carry an
      [ident] field; [x2 != x1] and dictionary keys are read on it.
    - Exceptions are values: a method returns [result A], either [Ok a] or
      [Raise e].  The partially mutated object left behind by a raising
      method is not kept.
    - IBEA computes with [math.exp]; its floats are idealised as real
      numbers (no rounding, no overflow, no NaN), division keeps Python's
      [ZeroDivisionError].  SMS-EMOA only compares and subtracts objective
      values; there they are rationals, so the model runs.
    - [random] is an interface: a generator state threaded through every
      draw. *)

From Stdlib Require Import Reals Lra Lia QArith Qround Sorted.
From stdpp Require Import base option list gmap fin_maps.

(** ** Python runtime: exceptions and the builtins the drivers call *)

Module Py.

Inductive exn : Type :=
| ValueError
| KeyError
| IndexError
| TypeError
| AttributeError
| ZeroDivisionError.

Inductive result (A : Type) : Type :=
| Ok (a : A)
| Raise (e : exn).

Arguments Ok {A} a.
Arguments Raise {A} e.

#[global] Instance result_ret : MRet result := fun A a => Ok a.

#[global] Instance result_bind : MBind result := fun A B f m =>
  match m with
  | Ok a => f a
  | Raise e => Raise e
  end.

#[global] Instance result_fmap : FMap result := fun A B f m =>
  match m with
  | Ok a => Ok (f a)
  | Raise e => Raise e
  end.

Definition is_Ok {A} (m : result A) : Prop := ∃ a, m = Ok a.

Definition raises {A} (m : result A) : Prop := ∃ e, m = Raise e.

(** [d[key]] on a dictionary. *)
Definition getitem `{Countable K} {V} (d : gmap K V) (key : K) : result V :=
  match d !! key with
  | Some x => Ok x
  | None => Raise KeyError
  end.

(** [for x in l: body], on a state that may raise. *)
Fixpoint for_each {A S} (body : A → S → result S) (l : list A) (s : S)
  : result S :=
  match l with
  | [] => Ok s
  | x :: l' => s' ← body x s; for_each body l' s'
  end.

(** [[f(x) for x in l]] where [f] may raise. *)
Fixpoint comprehension {A B} (f : A → result B) (l : list A)
  : result (list B) :=
  match l with
  | [] => Ok []
  | x :: l' => y ← f x; ys ← comprehension f l'; Ok (y :: ys)
  end.

Section Reals.
Open Scope R_scope.

(** [sys.float_info.epsilon], 2^-52. *)
Definition float_epsilon : R := / 4503599627370496.

Definition Rltb (a b : R) : bool := if Rlt_dec a b then true else false.

(** [max(l)] and [min(l)]: [ValueError] on an empty sequence. *)
Definition max (l : list R) : result R :=
  match l with
  | [] => Raise ValueError
  | x :: l' => Ok (fold_left Rmax l' x)
  end.

Definition min (l : list R) : result R :=
  match l with
  | [] => Raise ValueError
  | x :: l' => Ok (fold_left Rmin l' x)
  end.

(** [sum(l)], started from 0. *)
Definition sum (l : list R) : R := fold_left Rplus l 0.

(** [a / b] on floats. *)
Definition div (a b : R) : result R :=
  if Req_dec_T b 0 then Raise ZeroDivisionError else Ok (a / b).

(** [int(x)]: truncation towards zero. *)
Definition int (x : R) : Z :=
  if Rle_dec 0 x then Int_part x else (- Int_part (- x))%Z.

(** [sorted(l, key=..., reverse=True)] once the keys are known: stable,
    so among equal keys the original order is kept. *)
Fixpoint insert_desc {A} (x : A * R) (s : list (A * R)) : list (A * R) :=
  match s with
  | [] => [x]
  | y :: s' => if Rlt_dec x.2 y.2 then y :: insert_desc x s'
               else x :: y :: s'
  end.

Definition sorted_desc {A} (l : list (A * R)) : list (A * R) :=
  foldr insert_desc [] l.

(** Keys in descending order. *)
Definition descending {A} : list (A * R) → Prop :=
  StronglySorted (fun a b : A * R => b.2 <= a.2).

End Reals.

(** The [random] module, as far as the drivers use it.  [G] is the
    generator state. *)
Class Random (G : Type) : Type := {
  (** [random.random()] *)
  random : G → R * G;
  (** the index [random.choice] draws in a sequence of the given length *)
  randbelow : nat → G → nat * G;
  (** the two positions [random.sample(seq, 2)] draws in a sequence of
      the given length *)
  sample2 : nat → G → (nat * nat) * G
}.

(** [random.choice(seq)]: [IndexError] on an empty sequence. *)
Definition choice `{Random G} {A} (seq : list A) (g : G) : result (A * G) :=
  match seq with
  | [] => Raise IndexError
  | _ =>
      let '(i, g') := randbelow (length seq) g in
      match seq !! i with
      | Some x => Ok (x, g')
      | None => Raise IndexError
      end
  end.

(** [[f(x) for x in l]] where [f] draws random numbers. *)
Fixpoint comprehension_rnd {A B G} (f : A → G → result (B * G))
  (l : list A) (g : G) : result (list B * G) :=
  match l with
  | [] => Ok ([], g)
  | x :: l' =>
      '(y, g) ← f x g; '(ys, g) ← comprehension_rnd f l' g; Ok (y :: ys, g)
  end.

End Py.

Import Py.

(** ** IBEA: [algorithms/IBEA/IBEA.py] *)

Module IBEA.

#[local] Open Scope R_scope.

Definition vector : Type := list R.

(** [class Individual]: a vector and the [known_objectives] flag. *)
Record Individual : Type := mkIndividual {
  ident : nat;
  v : vector;
  known_objectives : bool
}.

Definition set_known_objectives (b : bool) (ind : Individual) : Individual :=
  {| ident := ident ind; v := v ind; known_objectives := b |}.

Definition set_v (x : vector) (ind : Individual) : Individual :=
  {| ident := ident ind; v := x; known_objectives := known_objectives ind |}.

(** The attributes of a driver.  [indicators], [c] and [fitness] are first
    assigned by [_calculate_fitness]; before that the dictionaries are
    modelled empty, so a premature read raises (as [KeyError], where Python
    reports [AttributeError]). *)
Record IBEA : Type := mkIBEA {
  individuals : list Individual;
  population_size : nat;
  mating_size : Z;
  dims : list (R * R);
  mutation_eta : R;
  mutation_rate : R;
  crossover_eta : R;
  crossover_rate : R;
  cost : nat;
  objectives : list (vector → R);
  scaled_objectives : list (vector → result R);
  generation_counter : nat;
  k : R;
  mating_size_c : R;
  trim_function : vector → vector;
  fitness_archive : option (vector → option (list R));
  indicators : gmap (nat * nat) R;
  c : R;
  fitness : gmap nat R;
  mating_individuals : list Individual;
  next_ident : nat
}.

(** Attribute assignment [self.f = x], one setter per assigned attribute. *)

Definition set_individuals (x : list Individual) (self : IBEA) : IBEA :=
  mkIBEA x (self.(population_size)) (self.(mating_size)) (self.(dims))
    (self.(mutation_eta)) (self.(mutation_rate)) (self.(crossover_eta))
    (self.(crossover_rate)) (self.(cost)) (self.(objectives))
    (self.(scaled_objectives)) (self.(generation_counter)) (self.(k))
    (self.(mating_size_c)) (self.(trim_function)) (self.(fitness_archive))
    (self.(indicators)) (self.(c)) (self.(fitness))
    (self.(mating_individuals)) (self.(next_ident)).

Definition set_population_size (x : nat) (self : IBEA) : IBEA :=
  mkIBEA (self.(individuals)) x (self.(mating_size)) (self.(dims))
    (self.(mutation_eta)) (self.(mutation_rate)) (self.(crossover_eta))
    (self.(crossover_rate)) (self.(cost)) (self.(objectives))
    (self.(scaled_objectives)) (self.(generation_counter)) (self.(k))
    (self.(mating_size_c)) (self.(trim_function)) (self.(fitness_archive))
    (self.(indicators)) (self.(c)) (self.(fitness))
    (self.(mating_individuals)) (self.(next_ident)).

Definition set_mating_size (x : Z) (self : IBEA) : IBEA :=
  mkIBEA (self.(individuals)) (self.(population_size)) x (self.(dims))
    (self.(mutation_eta)) (self.(mutation_rate)) (self.(crossover_eta))
    (self.(crossover_rate)) (self.(cost)) (self.(objectives))
    (self.(scaled_objectives)) (self.(generation_counter)) (self.(k))
    (self.(mating_size_c)) (self.(trim_function)) (self.(fitness_archive))
    (self.(indicators)) (self.(c)) (self.(fitness))
    (self.(mating_individuals)) (self.(next_ident)).

Definition set_cost (x : nat) (self : IBEA) : IBEA :=
  mkIBEA (self.(individuals)) (self.(population_size))
    (self.(mating_size)) (self.(dims)) (self.(mutation_eta))
    (self.(mutation_rate)) (self.(crossover_eta)) (self.(crossover_rate))
    x (self.(objectives)) (self.(scaled_objectives))
    (self.(generation_counter)) (self.(k)) (self.(mating_size_c))
    (self.(trim_function)) (self.(fitness_archive)) (self.(indicators))
    (self.(c)) (self.(fitness)) (self.(mating_individuals))
    (self.(next_ident)).

Definition set_scaled_objectives (x : list (vector → result R)) (self : IBEA) : IBEA :=
  mkIBEA (self.(individuals)) (self.(population_size))
    (self.(mating_size)) (self.(dims)) (self.(mutation_eta))
    (self.(mutation_rate)) (self.(crossover_eta)) (self.(crossover_rate))
    (self.(cost)) (self.(objectives)) x (self.(generation_counter))
    (self.(k)) (self.(mating_size_c)) (self.(trim_function))
    (self.(fitness_archive)) (self.(indicators)) (self.(c))
    (self.(fitness)) (self.(mating_individuals)) (self.(next_ident)).

Definition set_generation_counter (x : nat) (self : IBEA) : IBEA :=
  mkIBEA (self.(individuals)) (self.(population_size))
    (self.(mating_size)) (self.(dims)) (self.(mutation_eta))
    (self.(mutation_rate)) (self.(crossover_eta)) (self.(crossover_rate))
    (self.(cost)) (self.(objectives)) (self.(scaled_objectives)) x
    (self.(k)) (self.(mating_size_c)) (self.(trim_function))
    (self.(fitness_archive)) (self.(indicators)) (self.(c))
    (self.(fitness)) (self.(mating_individuals)) (self.(next_ident)).

Definition set_fitness_archive (x : option (vector → option (list R))) (self : IBEA) : IBEA :=
  mkIBEA (self.(individuals)) (self.(population_size))
    (self.(mating_size)) (self.(dims)) (self.(mutation_eta))
    (self.(mutation_rate)) (self.(crossover_eta)) (self.(crossover_rate))
    (self.(cost)) (self.(objectives)) (self.(scaled_objectives))
    (self.(generation_counter)) (self.(k)) (self.(mating_size_c))
    (self.(trim_function)) x (self.(indicators)) (self.(c))
    (self.(fitness)) (self.(mating_individuals)) (self.(next_ident)).

Definition set_indicators (x : gmap (nat * nat) R) (self : IBEA) : IBEA :=
  mkIBEA (self.(individuals)) (self.(population_size))
    (self.(mating_size)) (self.(dims)) (self.(mutation_eta))
    (self.(mutation_rate)) (self.(crossover_eta)) (self.(crossover_rate))
    (self.(cost)) (self.(objectives)) (self.(scaled_objectives))
    (self.(generation_counter)) (self.(k)) (self.(mating_size_c))
    (self.(trim_function)) (self.(fitness_archive)) x (self.(c))
    (self.(fitness)) (self.(mating_individuals)) (self.(next_ident)).

Definition set_c (x : R) (self : IBEA) : IBEA :=
  mkIBEA (self.(individuals)) (self.(population_size))
    (self.(mating_size)) (self.(dims)) (self.(mutation_eta))
    (self.(mutation_rate)) (self.(crossover_eta)) (self.(crossover_rate))
    (self.(cost)) (self.(objectives)) (self.(scaled_objectives))
    (self.(generation_counter)) (self.(k)) (self.(mating_size_c))
    (self.(trim_function)) (self.(fitness_archive)) (self.(indicators)) x
    (self.(fitness)) (self.(mating_individuals)) (self.(next_ident)).

Definition set_fitness (x : gmap nat R) (self : IBEA) : IBEA :=
  mkIBEA (self.(individuals)) (self.(population_size))
    (self.(mating_size)) (self.(dims)) (self.(mutation_eta))
    (self.(mutation_rate)) (self.(crossover_eta)) (self.(crossover_rate))
    (self.(cost)) (self.(objectives)) (self.(scaled_objectives))
    (self.(generation_counter)) (self.(k)) (self.(mating_size_c))
    (self.(trim_function)) (self.(fitness_archive)) (self.(indicators))
    (self.(c)) x (self.(mating_individuals)) (self.(next_ident)).

Definition set_mating_individuals (x : list Individual) (self : IBEA) : IBEA :=
  mkIBEA (self.(individuals)) (self.(population_size))
    (self.(mating_size)) (self.(dims)) (self.(mutation_eta))
    (self.(mutation_rate)) (self.(crossover_eta)) (self.(crossover_rate))
    (self.(cost)) (self.(objectives)) (self.(scaled_objectives))
    (self.(generation_counter)) (self.(k)) (self.(mating_size_c))
    (self.(trim_function)) (self.(fitness_archive)) (self.(indicators))
    (self.(c)) (self.(fitness)) x (self.(next_ident)).

Definition set_next_ident (x : nat) (self : IBEA) : IBEA :=
  mkIBEA (self.(individuals)) (self.(population_size))
    (self.(mating_size)) (self.(dims)) (self.(mutation_eta))
    (self.(mutation_rate)) (self.(crossover_eta)) (self.(crossover_rate))
    (self.(cost)) (self.(objectives)) (self.(scaled_objectives))
    (self.(generation_counter)) (self.(k)) (self.(mating_size_c))
    (self.(trim_function)) (self.(fitness_archive)) (self.(indicators))
    (self.(c)) (self.(fitness)) (self.(mating_individuals)) x.

(** *** Objective scaling *)

(** [_scale(fun, min_o, max_o)]: the closure [scaled].  The quotient is
    taken in the reals; in floating point [max_o - min_o + epsilon] rounds
    to [max_o - min_o] once the range reaches 2, and the maximum then
    scales to 1 exactly. *)
Definition _scale (fun_ : vector → R) (min_o max_o : R) : vector → result R :=
  fun x => div (fun_ x - min_o) (max_o - min_o + float_epsilon).

(** [(self.fitness_archive is not None) and (x in self.fitness_archive)] *)
Definition archived (self : IBEA) (x : vector) : bool :=
  match fitness_archive self with
  | Some archive => bool_decide (is_Some (archive x))
  | None => false
  end.

(** The test guarding [self.cost += 1] in [_scale_objectives]. *)
Definition charged (self : IBEA) (ind : Individual) : bool :=
  negb (known_objectives ind) || negb (archived self (v ind)).

(** The first loop of [_scale_objectives], on the running cost and on the
    individuals already visited. *)
Definition mark (self : IBEA) (acc : nat * list Individual) (ind : Individual)
  : nat * list Individual :=
  (if charged self ind then S acc.1 else acc.1,
   acc.2 ++ [set_known_objectives true ind]).

Definition min_max (x : list R) : result (R * R) :=
  lo ← min x; hi ← max x; Ok (lo, hi).

Definition _scale_objectives (self : IBEA) : result IBEA :=
  let '(cost', individuals') :=
    fold_left (mark self) (individuals self) (cost self, []) in
  let self := set_individuals individuals' (set_cost cost' self) in
  measured ← comprehension
    (fun objective =>
       mm ← min_max ((fun ind => objective (v ind)) <$> individuals self);
       Ok (objective, mm))
    (objectives self);
  Ok (set_scaled_objectives
        ((fun m : (vector → R) * (R * R) => _scale m.1 m.2.1 m.2.2) <$> measured)
        self).

(** [calculate_objectives(ind)]: the objective vector and the driver after
    the call. *)
Definition calculate_objectives (ind : Individual) (self : IBEA)
  : list R * IBEA :=
  match fitness_archive self with
  | Some archive =>
      match archive (v ind) with
      | Some objs => (objs, self)
      | None =>
          let self := if known_objectives ind then self
                      else set_cost (S (cost self)) self in
          ((fun objective => objective (v ind)) <$> objectives self, self)
      end
  | None =>
      let self := if known_objectives ind then self
                  else set_cost (S (cost self)) self in
      ((fun objective => objective (v ind)) <$> objectives self, self)
  end.

(** *** Indicator and fitness *)

(** [EPlusIndicator.__call__(x1, x2)], reading the driver's
    [scaled_objectives]. *)
Definition EPlusIndicator (self : IBEA) (x1 x2 : vector) : result R :=
  ds ← comprehension
    (fun objective => a ← objective x1; b ← objective x2; Ok (a - b))
    (scaled_objectives self);
  max ds.

(** [itertools.product(l1, l2)] *)
Definition product {A B} (l1 : list A) (l2 : list B) : list (A * B) :=
  x ← l1; (pair x) <$> l2.

(** [abs(self.c * self.k + sys.float_info.epsilon)] *)
Definition denominator (self : IBEA) : R :=
  Rabs (c self * k self + float_epsilon).

(** [math.exp((-1) * (self.indicators[(x2, x1)] / abs(...)))].  [math.exp]
    is the real exponential; the [OverflowError] it raises on an exponent
    above about 709.78 is not part of the model. *)
Definition exp_term (self : IBEA) (x2 x1 : Individual) : result R :=
  i ← getitem (indicators self) (ident x2, ident x1);
  q ← div i (denominator self);
  Ok (exp ((-1) * q)).

(** The value of the dictionary comprehension for key [x1], over the
    population [pop]. *)
Definition fitness_of (self : IBEA) (pop : list Individual) (x1 : Individual)
  : result R :=
  ts ← comprehension
    (fun x2 => e ← exp_term self x2 x1; Ok ((-1) * e))
    (filter (fun x2 => ident x2 ≠ ident x1) pop);
  Ok (sum ts).

(** [_calculate_fitness].  [self.indicators.values()] is enumerated by
    [map_to_list]; the order differs from Python's insertion order, which
    [max] does not observe (see [max_Permutation]). *)
Definition _calculate_fitness (self : IBEA) : result IBEA :=
  indicators' ← for_each
    (fun (p : Individual * Individual) (d : gmap (nat * nat) R) =>
       i ← EPlusIndicator self (v p.1) (v p.2);
       Ok (<[(ident p.1, ident p.2) := i]> d))
    (product (individuals self) (individuals self)) ∅;
  let self := set_indicators indicators' self in
  c' ← max (Rabs <$> (map_to_list (indicators self)).*2);
  let self := set_c c' self in
  fitness' ← for_each
    (fun (x1 : Individual) (d : gmap nat R) =>
       f ← fitness_of self (individuals self) x1;
       Ok (<[ident x1 := f]> d))
    (individuals self) ∅;
  Ok (set_fitness fitness' self).

(** *** Environmental selection *)

(** [list.pop()] *)
Definition pop {A} (l : list A) : result (A * list A) :=
  match last l with
  | Some x => Ok (x, removelast l)
  | None => Raise IndexError
  end.

(** One iteration of the [while] loop. *)
Definition remove_worst (self : IBEA) : result IBEA :=
  keyed ← comprehension
    (fun y => f ← getitem (fitness self) (ident y); Ok (y, f))
    (individuals self);
  '(removed, rest) ← pop (sorted_desc keyed).*1;
  let self := set_individuals rest self in
  fitness' ← for_each
    (fun (x : Individual) (d : gmap nat R) =>
       old ← getitem d (ident x);
       e ← exp_term self removed x;
       Ok (<[ident x := old + e]> d))
    (individuals self) (fitness self);
  Ok (set_fitness fitness' self).

(** The [while] loop; [None] when [fuel] iterations did not reach the exit. *)
Fixpoint environmental_loop (fuel : nat) (self : IBEA) : option (result IBEA) :=
  if decide (population_size self < length (individuals self))%nat then
    match fuel with
    | O => None
    | S fuel' =>
        match remove_worst self with
        | Ok self' => environmental_loop fuel' self'
        | Raise e => Some (Raise e)
        end
    end
  else Some (Ok self).

(** [_environmental_selection].  Every iteration drops one individual, so
    [length individuals] iterations always reach the exit
    ([environmental_loop_fuel]); the default is never taken. *)
Definition _environmental_selection (self : IBEA) : result IBEA :=
  default (Ok self) (environmental_loop (length (individuals self)) self).

(** *** Mating selection, variation, one generation *)

(** [algorithms.base.drivertools], whose source is not part of the model:
    the variation operators are an interface. *)
Class Operators (G : Type) : Type := {
  crossover : vector → vector → list (R * R) → R → R → G → vector * G;
  mutate : vector → list (R * R) → R → R → G → vector * G
}.

Section Stochastic.
Context `{Random G, Operators G}.

(** The lambda [better] of [_mating_selection], [coin()] drawn first. *)
Definition better (p : R) (self : IBEA) (x1 x2 : Individual) (g : G)
  : result (Individual * G) :=
  let '(r, g) := random g in
  if Rlt_dec r p then
    f1 ← getitem (fitness self) (ident x1);
    f2 ← getitem (fitness self) (ident x2);
    Ok (if Rlt_dec f1 f2 then x1 else x2, g)
  else
    f1 ← getitem (fitness self) (ident x1);
    f2 ← getitem (fitness self) (ident x2);
    Ok (if Rgt_dec f1 f2 then x1 else x2, g).

(** One element of the list comprehension:
    [better(random.choice(...), random.choice(...))]. *)
Definition tournament (p : R) (self : IBEA) (g : G)
  : result (Individual * G) :=
  '(x1, g) ← choice (individuals self) g;
  '(x2, g) ← choice (individuals self) g;
  better p self x1 x2 g.

Definition _mating_selection (p : R) (self : IBEA) (g : G)
  : result (IBEA * G) :=
  '(chosen, g) ← comprehension_rnd (fun _ : nat => tournament p self)
                   (seq 0 (Z.to_nat (2 * mating_size self))) g;
  Ok (set_mating_individuals chosen self, g).

(** [_crossover]: the offspring vectors that [self.mating_individuals]
    holds between [_crossover] and [_mutation]. *)
Definition _crossover (self : IBEA) (g : G) : result (list vector * G) :=
  let m := Z.to_nat (mating_size self) in
  comprehension_rnd
    (fun (i : nat) (g : G) =>
       match mating_individuals self !! i,
             mating_individuals self !! (m + i)%nat with
       | Some a, Some b =>
           Ok (crossover (v a) (v b) (dims self) (crossover_rate self)
                 (crossover_eta self) g)
       | _, _ => Raise IndexError
       end)
    (seq 0 m) g.

(** [_mutation]: each offspring is wrapped in a fresh [Individual]. *)
Fixpoint mutation_loop (offspring : list vector) (self : IBEA) (g : G)
  : list Individual * nat * G :=
  match offspring with
  | [] => ([], next_ident self, g)
  | x :: rest =>
      let '(x', g) := mutate x (dims self) (mutation_rate self)
                        (mutation_eta self) g in
      let ind := mkIndividual (next_ident self) x' false in
      let '(inds, n, g) :=
        mutation_loop rest (set_next_ident (S (next_ident self)) self) g in
      (ind :: inds, n, g)
  end.

Definition _mutation (offspring : list vector) (self : IBEA) (g : G)
  : IBEA * G :=
  let '(inds, n, g) := mutation_loop offspring self g in
  (set_mating_individuals (set_known_objectives false <$> inds)
     (set_next_ident n self), g).

Definition _next_step (self : IBEA) (g : G) : result (IBEA * G) :=
  self ← _calculate_fitness self;
  self ← _environmental_selection self;
  '(self, g) ← _mating_selection (9 / 10) self g;
  '(offspring, g) ← _crossover self g;
  let '(self, g) := _mutation offspring self g in
  let self := set_mating_individuals
                ((fun ind => set_v (trim_function self (v ind)) ind)
                   <$> mating_individuals self) self in
  let self := set_individuals
                (individuals self ++ mating_individuals self) self in
  self ← _scale_objectives self;
  Ok (set_generation_counter (S (generation_counter self)) self, g).

(** [step(steps)] *)
Fixpoint step (steps : nat) (self : IBEA) (g : G) : result (IBEA * G) :=
  match steps with
  | O => Ok (self, g)
  | S n => '(self, g) ← _next_step self g; step n self g
  end.

End Stochastic.

(** [m] is the outcome of one binary tournament of [_mating_selection] at
    probability [p] on the driver [s]: two individuals are drawn by
    [random.choice], then a coin by [random.random]; when the coin falls
    below [p] the individual of lower fitness comes back, otherwise the
    one of higher fitness. *)
Definition inverted_tournament `{Random G} (p : R) (s : IBEA)
  (m : Individual) : Prop :=
  ∃ (g0 g1 g2 g3 : G) (x1 x2 : Individual) (r f1 f2 fm : R),
    choice (individuals s) g0 = Ok (x1, g1)
    ∧ choice (individuals s) g1 = Ok (x2, g2)
    ∧ random g2 = (r, g3)
    ∧ fitness s !! ident x1 = Some f1
    ∧ fitness s !! ident x2 = Some f2
    ∧ (m = x1 ∨ m = x2)
    ∧ fitness s !! ident m = Some fm
    ∧ (r < p → fm = Rmin f1 f2)
    ∧ (¬ r < p → fm = Rmax f1 f2).

(** [population] (getter) *)
Definition population (self : IBEA) : list vector := v <$> individuals self.

(** [[self.Individual(x) for x in pop]], numbering the new objects from
    [n]. *)
Fixpoint wrap (n : nat) (pop : list vector) : list Individual :=
  match pop with
  | [] => []
  | x :: rest => mkIndividual n x false :: wrap (S n) rest
  end.

(** [population] (setter) *)
Definition population_setter (pop : list vector) (self : IBEA) : IBEA :=
  let self := set_next_ident (next_ident self + length pop)%nat
                (set_individuals (wrap (next_ident self) pop) self) in
  let self := set_population_size (length (individuals self)) self in
  set_mating_size
    (int (mating_size_c self * INR (population_size self))) self.

(** [__init__] *)
Definition __init__ (population : list vector) (dims : list (R * R))
  (fitnesses : list (vector → R)) (kappa mating_population_size
   mutation_eta crossover_eta mutation_rate crossover_rate : R)
  (trim_function : vector → vector)
  (fitness_archive : option (vector → option (list R))) : result IBEA :=
  let self :=
    {| individuals := []; population_size := 0; mating_size := 0;
       dims := dims; mutation_eta := mutation_eta;
       mutation_rate := mutation_rate; crossover_eta := crossover_eta;
       crossover_rate := crossover_rate; cost := 0;
       objectives := fitnesses; scaled_objectives := [];
       generation_counter := 0; k := kappa;
       mating_size_c := mating_population_size;
       trim_function := trim_function; fitness_archive := None;
       indicators := ∅; c := 0; fitness := ∅; mating_individuals := [];
       next_ident := 0 |} in
  let self := population_setter (trim_function <$> population) self in
  self ← _scale_objectives self;
  Ok (set_fitness_archive fitness_archive self).

(** [finish()] *)
Definition finish (self : IBEA) : result (list vector * IBEA) :=
  self ← _scale_objectives self;
  self ← _calculate_fitness self;
  self ← _environmental_selection self;
  Ok (v <$> individuals self, self).

(** *** Vocabulary for the statements about selection *)

(** A run of the selection loop that drops the individuals [removed], in
    this order: each iteration drops exactly one individual, and that one
    has the lowest cached fitness of the population it is taken from. *)
Inductive lowest_first : IBEA → list Individual → IBEA → Prop :=
| lowest_first_done (s : IBEA) : lowest_first s [] s
| lowest_first_step (s s' s'' : IBEA) (r : Individual)
    (rs : list Individual) (f : R) :
    remove_worst s = Ok s' →
    individuals s ≡ₚ r :: individuals s' →
    fitness s !! ident r = Some f →
    (∀ y fy, y ∈ individuals s → fitness s !! ident y = Some fy → f <= fy) →
    lowest_first s' rs s'' →
    lowest_first s (r :: rs) s''.

(** The cached fitness of every individual is the fitness sum over the
    current population, on the cached indicator values and the cached
    normalisation constant [c]. *)
Definition fitness_cached (s : IBEA) : Prop :=
  ∀ x, x ∈ individuals s →
    ∃ f, fitness s !! ident x = Some f
         ∧ fitness_of s (individuals s) x = Ok f.

(** Two drivers with the same cached indicators, [c] and [k]. *)
Definition same_caches (s s' : IBEA) : Prop :=
  indicators s = indicators s' ∧ c s = c s' ∧ k s = k s'.


(** The individuals are pairwise distinct objects, all allocated before
    the allocation counter. *)
Definition well_numbered (self : IBEA) : Prop :=
  NoDup (ident <$> individuals self)
  ∧ Forall (fun x => (ident x < next_ident self)%nat) (individuals self).

(** The cached fitness of every individual is what [_calculate_fitness]
    computes afresh on the current population, [c] included. *)
Definition fitness_recomputed (s : IBEA) : Prop :=
  ∃ s', _calculate_fitness s = Ok s'
        ∧ ∀ x, x ∈ individuals s → fitness s !! ident x = fitness s' !! ident x.

End IBEA.

(** ** [IBEA.IBEAImgaProxy]: the migration proxy

    [population_generator] hands the proxy the very list object that is the
    driver's [individuals]; the proxy mutates it in place.  List objects
    therefore live in a store, and both the driver and the proxy hold a
    reference into it.  A Python list takes any object, so the elements are
    dynamically typed. *)

Module Proxy.

Import IBEA.

Inductive pyobject : Type :=
| PyIndividual (x : Individual)
| PyVector (x : vector).

#[global] Instance R_eq_dec : EqDecision R := Req_dec_T.

(** [a == b]: identity on individuals, value equality on vectors. *)
Definition py_eq (a b : pyobject) : bool :=
  match a, b with
  | PyIndividual x, PyIndividual y => bool_decide (ident x = ident y)
  | PyVector x, PyVector y => bool_decide (x = y)
  | _, _ => false
  end.

(** [p.v]: only an [Individual] has the attribute. *)
Definition attr_v (p : pyobject) : result vector :=
  match p with
  | PyIndividual x => Ok (v x)
  | PyVector _ => Raise AttributeError
  end.

(** [l.remove(x)]: drops the first element equal to [x]. *)
Fixpoint remove {A} (eqb : A → A → bool) (x : A) (l : list A)
  : result (list A) :=
  match l with
  | [] => Raise ValueError
  | y :: l' => if eqb y x then Ok l' else l'' ← remove eqb x l'; Ok (y :: l'')
  end.

(** The store of list objects, by reference. *)
Definition store : Type := gmap nat (list pyobject).

(** The list behind a reference (a reference always points to a list). *)
Definition deref (h : store) (l : nat) : list pyobject := default [] (h !! l).

Record IBEAImgaProxy : Type := mkProxy {
  individuals : nat;
  cost : nat
}.

(** [current_population()] *)
Definition current_population (self : IBEAImgaProxy) (h : store)
  : result (list vector) :=
  comprehension attr_v (deref h (individuals self)).

(** The first loop of [deport_emigrants], on [(immigrants_cp, to_remove)]. *)
Definition scan (p : pyobject) (acc : list vector * list pyobject)
  : result (list vector * list pyobject) :=
  x ← attr_v p;
  if bool_decide (x ∈ acc.1) then
    cp ← remove (fun a b : vector => bool_decide (a = b)) x acc.1;
    Ok (cp, acc.2 ++ [p])
  else Ok acc.

(** [deport_emigrants(immigrants)] *)
Definition deport_emigrants (self : IBEAImgaProxy) (immigrants : list vector)
  (h : store) : result (list pyobject * store) :=
  '(_, to_remove) ← for_each scan (deref h (individuals self)) (immigrants, []);
  rest ← for_each (remove py_eq) to_remove (deref h (individuals self));
  Ok (to_remove, <[individuals self := rest]> h).

(** [assimilate_immigrants(emigrants)]: [self.individuals.extend(emigrants)] *)
Definition assimilate_immigrants (self : IBEAImgaProxy)
  (emigrants : list pyobject) (h : store) : store :=
  <[individuals self := deref h (individuals self) ++ emigrants]> h.

(** The claim of the specification about [assimilate_immigrants], on the
    words of the specification: the vectors handed over come back wrapped
    in new, unevaluated individuals at the end of the population. *)
Definition wraps_as_new (before after : list pyobject)
  (vectors : list vector) : Prop :=
  ∃ new : list Individual,
    after = before ++ (PyIndividual <$> new)
    ∧ v <$> new = vectors
    ∧ Forall (fun x => known_objectives x = false) new.

End Proxy.

(** ** SMS-EMOA: [ep/smsemoa/smsemoa.py] *)

Module SMSEMOA.

#[local] Open Scope Q_scope.

Definition vector : Type := list Q.

(** [class Individual] *)
Record Individual : Type := mkIndividual {
  ident : nat;
  value : vector;
  objectives : list Q
}.

Definition set_objectives (objs : list Q) (p : Individual) : Individual :=
  {| ident := ident p; value := value p; objectives := objs |}.

(** What the attribute [__population] holds: the setter stores a list,
    [steps] stores whatever [reduce_population] returns. *)
Inductive population_attr : Type :=
| PopList (l : list Individual)
| PopIndividual (x : Individual).

Record SMSEMOA : Type := mkSMSEMOA {
  __population : population_attr;
  fitnesses : list (vector → Q);
  dims : list (Q * Q);
  epoch_length : Z;
  next_ident : nat
}.

Definition set___population (x : population_attr) (self : SMSEMOA) : SMSEMOA :=
  mkSMSEMOA x (fitnesses self) (dims self) (epoch_length self)
    (next_ident self).

Definition set_next_ident (x : nat) (self : SMSEMOA) : SMSEMOA :=
  mkSMSEMOA (__population self) (fitnesses self) (dims self)
    (epoch_length self) x.

(** [ep.utils.driver.Driver], whose source is not part of the model: the
    variation operators of the base class are an interface. *)
Class Driver (G : Type) : Type := {
  crossover : vector → vector → G → vector * G;
  mutate : vector → G → vector * G
}.

(** [ep.smsemoa.hv.HyperVolume], whose source is not part of the model:
    [HyperVolume(reference).compute(front)]. *)
Class HyperVolume : Type := {
  compute : list Q → list (list Q) → Q
}.

(** Modelled from the spec: [ep.utils.ea_utils.dominates], which is not
    among the sources.  [a] dominates [b] when it is no worse in every
    objective (minimisation) and strictly better in at least one. *)
Definition dominates (a b : list Q) : bool :=
  forallb (fun p : Q * Q => Qle_bool p.1 p.2) (zip a b)
  && existsb (fun p : Q * Q => negb (Qle_bool p.2 p.1)) (zip a b).

(** Iterating over [self.__population]: only a list is iterable. *)
Definition iter (p : population_attr) : result (list Individual) :=
  match p with
  | PopList l => Ok l
  | PopIndividual _ => Raise TypeError
  end.

(** [population] (getter) *)
Definition population (self : SMSEMOA) : result (list vector) :=
  l ← iter (__population self); Ok (map value l).

(** [[Individual(x) for x in pop]], numbering the new objects from [n]. *)
Fixpoint wrap (n : nat) (pop : list vector) : list Individual :=
  match pop with
  | [] => []
  | x :: rest => mkIndividual n x [] :: wrap (S n) rest
  end.

(** [population] (setter) *)
Definition population_setter (pop : list vector) (self : SMSEMOA) : SMSEMOA :=
  set_next_ident (next_ident self + length pop)%nat
    (set___population (PopList (wrap (next_ident self) pop)) self).

(** [int(x)]: truncation towards zero. *)
Definition int (x : Q) : Z :=
  if Qle_bool 0 x then Qfloor x else Qceiling x.

(** [__init__]; the arguments that only the base class reads are left to
    the [Driver] interface. *)
Definition __init__ (population : list vector) (fitnesses : list (vector → Q))
  (dims : list (Q * Q)) (epoch_length_multiplier : Q) : SMSEMOA :=
  let self := population_setter population
                (mkSMSEMOA (PopList []) fitnesses dims 0 0) in
  mkSMSEMOA (__population self) fitnesses dims
    (int (inject_Z (Z.of_nat (length population)) * epoch_length_multiplier))
    (next_ident self).

(** [finish()]: the value returned and the driver after the call. *)
Definition finish (self : SMSEMOA) : result (list vector) * SMSEMOA :=
  (population self, self).

(** [calculate_objectives(pop)]: the individuals with their objectives
    assigned, and the returned count. *)
Definition calculate_objectives (self : SMSEMOA) (pop : list Individual)
  : list Individual * nat :=
  ((fun p => set_objectives ((fun o => o (value p)) <$> fitnesses self) p)
     <$> pop,
   length pop).

(** [generate(pop)]: [ValueError] from [random.sample] when fewer than two
    individuals are on offer. *)
Definition generate `{Random G, Driver G} (self : SMSEMOA)
  (pop : population_attr) (g : G) : result (Individual * SMSEMOA * G) :=
  match pop with
  | PopIndividual _ => Raise TypeError
  | PopList l =>
      if decide (length l < 2)%nat then Raise ValueError
      else
        let '(i, j, g) := sample2 (length l) g in
        match l !! i, l !! j with
        | Some a, Some b =>
            let '(child, g) := crossover (value a) (value b) g in
            let '(child, g) := mutate child g in
            Ok (mkIndividual (next_ident self) child [],
                set_next_ident (S (next_ident self)) self, g)
        | _, _ => Raise IndexError
        end
  end.

(** *** Non-dominated sort *)

(** The three [defaultdict]s of [nd_sort], keyed by object identity (front
    numbers for [front]).  Reading a missing key yields the default; that
    the read also stores the default is not observed by this program.
    A Python set of such objects iterates in an unspecified order; the
    model keeps insertion order. *)
Record fronts : Type := mkFronts {
  dominated_by : gmap nat (list Individual);
  how_many_dominates : gmap nat Z;
  front : gmap nat (list Individual)
}.

Definition get_dominated_by (s : fronts) (x : Individual) : list Individual :=
  default [] (dominated_by s !! ident x).

Definition get_how_many (s : fronts) (x : Individual) : Z :=
  default 0%Z (how_many_dominates s !! ident x).

Definition get_front (s : fronts) (n : nat) : list Individual :=
  default [] (front s !! n).

(** [dominated_by[x].add(y)] *)
Definition add_dominated (x y : Individual) (s : fronts) : fronts :=
  let old := get_dominated_by s x in
  let new := if existsb (fun z => bool_decide (ident z = ident y)) old
             then old else old ++ [y] in
  mkFronts (<[ident x := new]> (dominated_by s)) (how_many_dominates s)
    (front s).

(** [how_many_dominates[x] += d] *)
Definition bump (x : Individual) (d : Z) (s : fronts) : fronts :=
  mkFronts (dominated_by s)
    (<[ident x := (get_how_many s x + d)%Z]> (how_many_dominates s))
    (front s).

(** [front[n].append(x)] *)
Definition append_front (n : nat) (x : Individual) (s : fronts) : fronts :=
  mkFronts (dominated_by s) (how_many_dominates s)
    (<[n := get_front s n ++ [x]]> (front s)).

(** Body of [for y in pop] in the first loop. *)
Definition compare (x : Individual) (s : fronts) (y : Individual) : fronts :=
  if dominates (objectives x) (objectives y) then add_dominated x y s
  else if dominates (objectives y) (objectives x) then bump x 1 s
  else s.

(** Body of [for x in pop] in the first loop. *)
Definition classify (pop : list Individual) (s : fronts) (x : Individual)
  : fronts :=
  let s := fold_left (compare x) pop s in
  if bool_decide (get_how_many s x = 0%Z) then append_front 1 x s else s.

(** Body of [for y in dominated_by[x]] in the peeling loop. *)
Definition release (front_no : nat) (s : fronts) (y : Individual) : fronts :=
  let s := bump y (-1) s in
  if bool_decide (get_how_many s y = 0%Z) then append_front (S front_no) y s
  else s.

(** Body of [for x in front[front_no]]. *)
Definition peel_one (front_no : nat) (s : fronts) (x : Individual) : fronts :=
  fold_left (release front_no) (get_dominated_by s x) s.

(** The [while True] loop; [None] when [fuel] iterations did not reach
    [break]. *)
Fixpoint peel (fuel : nat) (front_no : nat) (s : fronts) : option fronts :=
  if bool_decide (length (get_front s front_no) = 0%nat) then Some s
  else
    match fuel with
    | O => None
    | S fuel' =>
        peel fuel' (S front_no)
          (fold_left (peel_one front_no) (get_front s front_no) s)
    end.

(** The individuals whose counter is still positive: those that a later
    front can still receive. *)
Definition pending (s : fronts) : nat :=
  size (filter (fun kv : nat * Z => (1 <= kv.2)%Z) (how_many_dominates s)).

Definition nd_sort_start (pop : list Individual) : fronts :=
  fold_left (classify pop) pop (mkFronts ∅ ∅ ∅).

(** [nd_sort(pop)].  Every front after the first is paid for by a counter
    that drops to zero, so the peeling loop breaks within the fuel given
    here ([peel_fuel]); the default is never taken. *)
Definition nd_sort (pop : list Individual) : fronts :=
  let s := nd_sort_start pop in
  default s (peel (S (size (how_many_dominates s))) 1 s).

(** *** Reduction *)

(** [a < b] on the tuples [(individual, contribution)]: individuals are
    compared first, and two distinct individuals have no order. *)
Definition tuple_lt (a b : Individual * Q) : result bool :=
  if bool_decide (ident a.1 = ident b.1) then
    Ok (negb (Qeq_bool a.2 b.2) && negb (Qle_bool b.2 a.2))
  else Raise TypeError.

(** [min] over a sequence of such tuples. *)
Fixpoint min_from (m : Individual * Q) (l : list (Individual * Q))
  : result (Individual * Q) :=
  match l with
  | [] => Ok m
  | x :: l' =>
      tuple_lt x m ≫= fun b : bool => min_from (if b then x else m) l'
  end.

Definition min_tuple (l : list (Individual * Q)) : result (Individual * Q) :=
  match l with
  | [] => Raise ValueError
  | x :: l' => min_from x l'
  end.

(** [reduce_population(pop)]: what it returns is [min_contributor[0]]. *)
Definition reduce_population `{HyperVolume} (self : SMSEMOA)
  (pop : list Individual) : result Individual :=
  let sorted_pop := nd_sort pop in
  let worst_front := get_front sorted_pop (length pop) in
  let reference := snd <$> dims self in
  let results := objectives <$> worst_front in
  let hv_global := compute reference results in
  min_contributor ← min_tuple
    (imap (fun (i : nat) (x : Individual) =>
             (x, hv_global
                 - compute reference (take i results ++ drop (S i) results)))
       worst_front);
  Ok min_contributor.1.

(** *** The steady-state loop *)

Section Steps.
Context `{Random G, Driver G, HyperVolume}.

(** The body of the inner loop of [steps], up to the budget test: the
    driver after it and the cost of the insertion. *)
Definition insertion (self : SMSEMOA) (g : G)
  : result (SMSEMOA * nat * G) :=
  generate self (__population self) g ≫= fun r : Individual * SMSEMOA * G =>
  let '(new_indiv, self, g) := r in
  let '(new, n) := calculate_objectives self [new_indiv] in
  iter (__population self) ≫= fun pop : list Individual =>
  reduce_population self (pop ++ new) ≫= fun reduced : Individual =>
  Ok (set___population (PopIndividual reduced) self, n, g).

(** [budget is not None and cost > budget] *)
Definition exceeded (budget : option nat) (cost : nat) : bool :=
  match budget with
  | Some b => bool_decide (b < cost)%nat
  | None => false
  end.

(** [for _ in range(self.epoch_length)]; the flag tells that [return]
    was reached inside the loop. *)
Fixpoint epoch (n : nat) (budget : option nat) (self : SMSEMOA)
  (cost : nat) (g : G) : result (SMSEMOA * nat * G * bool) :=
  match n with
  | O => Ok (self, cost, g, false)
  | S n' =>
      insertion self g ≫= fun r : SMSEMOA * nat * G =>
      let '(self, n, g) := r in
      let cost := (cost + n)%nat in
      if exceeded budget cost then Ok (self, cost, g, true)
      else epoch n' budget self cost g
  end.

(** [for _ in condI], for an iterable of [condI] items. *)
Fixpoint epochs (condI : nat) (budget : option nat) (self : SMSEMOA)
  (cost : nat) (g : G) : result (SMSEMOA * nat * G) :=
  match condI with
  | O => Ok (self, cost, g)
  | S condI' =>
      epoch (Z.to_nat (epoch_length self)) budget self cost g
        ≫= fun r : SMSEMOA * nat * G * bool =>
      let '(self, cost, g, returned) := r in
      if returned then Ok (self, cost, g)
      else epochs condI' budget self cost g
  end.

(** [steps(condI, budget)]: the driver after the call and the returned
    cost. *)
Definition steps (condI : nat) (budget : option nat) (self : SMSEMOA)
  (g : G) : result (SMSEMOA * nat * G) :=
  iter (__population self) ≫= fun pop : list Individual =>
  let '(pop, cost) := calculate_objectives self pop in
  epochs condI budget (set___population (PopList pop) self) cost g.

End Steps.

End SMSEMOA.

(** ** Concrete drivers and collaborators, for evaluating the model *)

Module Examples.

(** A generator that counts its draws: coins alternate between 0 and 1,
    indices cycle through the sequence. *)
Definition counter : Random nat :=
  {| random g := (if Nat.even g then 0%R else 1%R, S g);
     randbelow n g := (g mod n, S g);
     sample2 n g := ((g mod n, S g mod n), S g) |}.

Module I.
Import IBEA.
#[local] Open Scope R_scope.

Definition first_coordinate (x : vector) : R := nth 0 x 0.

(** Variation that hands the first parent on unchanged. *)
Definition clone : Operators nat :=
  {| crossover a b _ _ _ g := (a, g); mutate x _ _ _ g := (x, g) |}.

(** A driver over the given individuals, one objective, no archive. *)
Definition driver (inds : list Individual) (size : nat) (m : Z) : IBEA :=
  {| individuals := inds; population_size := size; mating_size := m;
     dims := [(0, 4)]; mutation_eta := 1; mutation_rate := 1;
     crossover_eta := 1; crossover_rate := 1; cost := 0;
     objectives := [first_coordinate]; scaled_objectives := [];
     generation_counter := 0; k := 1; mating_size_c := 1 / 2;
     trim_function := fun x => x; fitness_archive := None;
     indicators := ∅;
     c := 0; fitness := ∅; mating_individuals := [];
     next_ident := length inds |}.

(** One individual whose objectives are already known. *)
Definition evaluated : IBEA := driver [mkIndividual 0 [1] true] 1 0.

(** A driver without individuals that is asked for one offspring. *)
Definition deserted : IBEA := driver [] 0 1.

(** A driver with one individual and no objective at all. *)
Definition blind : IBEA :=
  {| individuals := [mkIndividual 0 [1] true]; population_size := 1;
     mating_size := 0; dims := [(0, 4)]; mutation_eta := 1;
     mutation_rate := 1; crossover_eta := 1; crossover_rate := 1; cost := 1;
     objectives := []; scaled_objectives := []; generation_counter := 0;
     k := 1; mating_size_c := 1 / 2; trim_function := fun x => x;
     fitness_archive := None; indicators := ∅; c := 0; fitness := ∅;
     mating_individuals := []; next_ident := 1 |}.

(** The same population after [_scale_objectives], breeding one offspring
    per generation. *)
Definition breeding : IBEA :=
  set_scaled_objectives [_scale first_coordinate 1 1]
    (driver [mkIndividual 0 [1] true] 1 1).

(** Three evaluated individuals at 0, 1 and 2, for a population of 2. *)
Definition A : Individual := mkIndividual 0 [0] true.
Definition B : Individual := mkIndividual 1 [1] true.
Definition C : Individual := mkIndividual 2 [2] true.
Definition three : IBEA := driver [A; B; C] 2 1.

(** [three] once [_scale_objectives] has run: the objective ranges over
    [0, 2], and each of the three evaluated individuals was charged. *)
Definition three_scaled : IBEA :=
  set_scaled_objectives [_scale first_coordinate 0 2] (set_cost 3 three).

(** The scaled objective of a vector with first coordinate [x]. *)
Definition scaled (x : R) : R := (x - 0) / (2 - 0 + float_epsilon).

End I.

Module S.
Import SMSEMOA.
#[local] Open Scope Q_scope.

(** Objectives that read the two coordinates of the vector. *)
Definition f1 (x : vector) : Q := nth 0 x 0.
Definition f2 (x : vector) : Q := nth 1 x 0.

(** Offspring: the coordinate-wise sum of the parents, not mutated. *)
Definition worse : Driver nat :=
  {| crossover a b g := (zip_with Qplus a b, g);
     mutate x g := (x, g) |}.

(** A hypervolume that counts the points. *)
Definition counting : HyperVolume :=
  {| compute _ front := inject_Z (Z.of_nat (length front)) |}.

(** Two mutually non-dominated individuals. *)
Definition trade_off : SMSEMOA :=
  __init__ [[1; 2]; [2; 1]] [f1; f2] [(0, 4); (0, 4)] (1 # 2).

(** Two individuals, the first dominating the second. *)
Definition chain : SMSEMOA :=
  __init__ [[1; 1]; [2; 2]] [f1; f2] [(0, 4); (0, 4)] (1 # 2).
End S.

End Examples.

(** ** Facts about the runtime model *)

Module PyFacts.

#[local] Open Scope R_scope.

Lemma float_epsilon_pos : 0 < float_epsilon.
Proof. unfold float_epsilon. lra. Qed.

Lemma bind_Ok {A B} (m : result A) (f : A → result B) (b : B) :
  m ≫= f = Ok b ↔ ∃ a, m = Ok a ∧ f a = Ok b.
Proof.
  destruct m as [a|e]; simpl; split.
  - eauto.
  - by intros (a' & [= <-] & ?).
  - discriminate.
  - by intros (a' & ? & ?).
Qed.

Lemma comprehension_Forall2 {A B} (f : A → result B) l ys :
  comprehension f l = Ok ys ↔ Forall2 (fun x y => f x = Ok y) l ys.
Proof.
  revert ys. induction l as [|x l IH]; intros ys; simpl.
  - split; [intros [= <-]; constructor | by inversion 1].
  - split.
    + intros (y & Hy & (ys' & Hys & [= <-])%bind_Ok)%bind_Ok.
      constructor; [done | by apply IH].
    + inversion 1 as [|? y ? ys' Hy Hys]; subst.
      rewrite Hy. simpl. apply IH in Hys. by rewrite Hys.
Qed.

Lemma comprehension_fmap {A B} (f : A → result B) (h : A → B) l :
  Forall (fun x => f x = Ok (h x)) l → comprehension f l = Ok (h <$> l).
Proof.
  induction 1 as [|x l Hx _ IH]; simpl; [done |].
  by rewrite Hx, IH.
Qed.

Lemma comprehension_length {A B} (f : A → result B) l ys :
  comprehension f l = Ok ys → length ys = length l.
Proof. intros H%comprehension_Forall2. symmetry. by eapply Forall2_length. Qed.

(** [max] and [min] return an element that bounds the list. *)
Lemma fold_Rmax_spec l x :
  fold_left Rmax l x ∈ x :: l ∧ Forall (fun y => y <= fold_left Rmax l x) (x :: l).
Proof.
  revert x. induction l as [|y l IH]; intros x; simpl.
  - split; [left | apply Forall_cons; split; [lra | constructor]].
  - destruct (IH (Rmax x y)) as [Hin Hall].
    inversion Hall as [|? ? Hxy Hl]; subst. split.
    + apply elem_of_cons in Hin as [Heq | Hin]; [| by do 2 right].
      rewrite Heq. unfold Rmax. destruct (Rle_dec x y); [right; left | left].
    + pose proof (Rmax_l x y). pose proof (Rmax_r x y).
      apply Forall_cons; split; [lra |]. apply Forall_cons; split; [lra | done].
Qed.

Lemma fold_Rmin_spec l x :
  fold_left Rmin l x ∈ x :: l ∧ Forall (fun y => fold_left Rmin l x <= y) (x :: l).
Proof.
  revert x. induction l as [|y l IH]; intros x; simpl.
  - split; [left | apply Forall_cons; split; [lra | constructor]].
  - destruct (IH (Rmin x y)) as [Hin Hall].
    inversion Hall as [|? ? Hxy Hl]; subst. split.
    + apply elem_of_cons in Hin as [Heq | Hin]; [| by do 2 right].
      rewrite Heq. unfold Rmin. destruct (Rle_dec x y); [left | right; left].
    + pose proof (Rmin_l x y). pose proof (Rmin_r x y).
      apply Forall_cons; split; [lra |]. apply Forall_cons; split; [lra | done].
Qed.

Lemma max_spec l m :
  max l = Ok m ↔ m ∈ l ∧ Forall (fun y => y <= m) l.
Proof.
  destruct l as [|x l]; simpl.
  - split; [discriminate | by intros [?%elem_of_nil _]].
  - split.
    + intros [= <-]. apply fold_Rmax_spec.
    + intros [Hin Hall]. f_equal.
      destruct (fold_Rmax_spec l x) as [Hin' Hall'].
      apply Rle_antisym.
      * by eapply (proj1 (Forall_forall _ _)) in Hall.
      * by eapply (proj1 (Forall_forall _ _)) in Hall'.
Qed.

Lemma min_spec l m :
  min l = Ok m ↔ m ∈ l ∧ Forall (fun y => m <= y) l.
Proof.
  destruct l as [|x l]; simpl.
  - split; [discriminate | by intros [?%elem_of_nil _]].
  - split.
    + intros [= <-]. apply fold_Rmin_spec.
    + intros [Hin Hall]. f_equal.
      destruct (fold_Rmin_spec l x) as [Hin' Hall'].
      apply Rle_antisym.
      * by eapply (proj1 (Forall_forall _ _)) in Hall'.
      * by eapply (proj1 (Forall_forall _ _)) in Hall.
Qed.

Lemma max_is_Ok l : l ≠ [] → is_Ok (max l).
Proof. destruct l; [done | intros _; by eexists]. Qed.

Lemma max_nil_iff l e : max l = Raise e → l = [] ∧ e = ValueError.
Proof. destruct l; simpl; [by intros [= <-] | discriminate]. Qed.

Lemma min_le_max l lo hi : min l = Ok lo → max l = Ok hi → lo <= hi.
Proof.
  intros [Hlo _]%min_spec [_ Hhi]%max_spec.
  by eapply (proj1 (Forall_forall _ _)) in Hhi.
Qed.

(** The order in which the values are enumerated is immaterial to [max]. *)
Lemma max_Permutation l1 l2 : l1 ≡ₚ l2 → max l1 = max l2.
Proof.
  intros Hp. destruct (max l1) as [m|e] eqn:H1.
  - symmetry. apply max_spec. apply max_spec in H1 as [Hin Hall].
    by rewrite <- Hp.
  - apply max_nil_iff in H1 as [-> ->].
    apply Permutation_nil_l in Hp. by subst.
Qed.

Lemma div_Ok a b : b ≠ 0 → div a b = Ok (a / b).
Proof. intros Hb. unfold div. by destruct (Req_dec_T b 0). Qed.

Lemma comprehension_ext {A B} (f g : A → result B) l :
  Forall (fun x => f x = g x) l → comprehension f l = comprehension g l.
Proof. induction 1 as [|x l Hx _ IH]; simpl; [done |]. by rewrite Hx, IH. Qed.

Lemma comprehension_elem_Ok {A B} (f : A → result B) l ys x :
  comprehension f l = Ok ys → x ∈ l → is_Ok (f x).
Proof.
  intros H%comprehension_Forall2 Hx.
  induction H as [|a b l k Ha _ IH]; [by apply elem_of_nil in Hx |].
  apply elem_of_cons in Hx as [-> | Hx]; [by eexists | by apply IH].
Qed.

Lemma getitem_Ok `{Countable K} {V} (d : gmap K V) i y :
  getitem d i = Ok y ↔ d !! i = Some y.
Proof.
  unfold getitem. destruct (d !! i); split; try discriminate; by intros [= ->].
Qed.

Lemma comprehension_is_Ok {A B} (f : A → result B) l :
  Forall (fun x => is_Ok (f x)) l → is_Ok (comprehension f l).
Proof.
  induction 1 as [|x l [y Hy] _ [ys IH]]; simpl; [by eexists |].
  rewrite Hy, IH. by eexists.
Qed.

Lemma comprehension_Permutation {A B} (f : A → result B) l l' ys :
  l ≡ₚ l' → comprehension f l = Ok ys →
  ∃ ys', comprehension f l' = Ok ys' ∧ ys ≡ₚ ys'.
Proof.
  intros Hp. revert ys.
  induction Hp as [|x l l' _ IH|x y l|l l' l'' _ IH1 _ IH2]; intros ys; simpl.
  - intros [= <-]. by exists [].
  - intros (z & Hz & (zs & Hzs & [= <-])%bind_Ok)%bind_Ok.
    destruct (IH _ Hzs) as (zs' & -> & Hp'). rewrite Hz. simpl.
    exists (z :: zs'). split; [done | by constructor].
  - intros (b & Hb & (bs & (a & Ha & (zs & Hzs & [= <-])%bind_Ok)%bind_Ok
                        & [= <-])%bind_Ok)%bind_Ok.
    rewrite Ha, Hb, Hzs. simpl. eexists. split; [done | by constructor].
  - intros Hys. destruct (IH1 _ Hys) as (ys' & Hys' & Hp1).
    destruct (IH2 _ Hys') as (ys'' & Hys'' & Hp2).
    exists ys''. split; [done | by etrans].
Qed.

(** *** Loops that fill a dictionary *)

Section fill.
Context `{Countable K} {A V : Type} (key : A → K) (f : A → result V).

#[local] Abbreviation fill_body :=
  (fun (x : A) (d : gmap K V) => y ← f x; Ok (<[key x := y]> d)).

Lemma fill_Ok l d0 d :
  for_each fill_body l d0 = Ok d →
  Forall (fun x => is_Ok (f x)) l
  ∧ ∀ k, (∃ x y, x ∈ l ∧ key x = k ∧ f x = Ok y ∧ d !! k = Some y)
         ∨ ((∀ x, x ∈ l → key x ≠ k) ∧ d !! k = d0 !! k).
Proof.
  revert d0. induction l as [|x l IH]; intros d0; simpl.
  - intros [= <-]. split; [constructor |]. intros k. right.
    split; [| done]. by intros x ?%elem_of_nil.
  - intros (d1 & (y & Hy & [= <-])%bind_Ok & Hrest)%bind_Ok.
    destruct (IH _ Hrest) as [Hall Hk]. split.
    { constructor; [by eexists | done]. }
    intros k. destruct (Hk k) as [(x' & y' & Hin & ? & ? & ?) | [Hno Hlk]].
    + left. exists x', y'. split_and!; [by right | done..].
    + destruct (decide (key x = k)) as [<- | Hne].
      * left. exists x, y. rewrite lookup_insert_eq in Hlk.
        split_and!; [by left | done..].
      * right. rewrite lookup_insert_ne in Hlk by done. split; [| done].
        intros x' [-> | ?]%elem_of_cons; auto.
Qed.

Lemma fill_is_Ok l d0 :
  Forall (fun x => is_Ok (f x)) l → is_Ok (for_each fill_body l d0).
Proof.
  intros Hall. revert d0.
  induction Hall as [|x l [y Hy] _ IH]; intros d0; simpl; [by eexists |].
  rewrite Hy. simpl. apply IH.
Qed.

Lemma fill_raise l d0 x e :
  l !! 0%nat = Some x → f x = Raise e → for_each fill_body l d0 = Raise e.
Proof.
  destruct l as [|x' l]; [done |]. intros [= ->] Hx. simpl.
  by rewrite Hx.
Qed.
End fill.

(** *** Sums *)

Lemma fold_Rplus l a : fold_left Rplus l a = a + fold_left Rplus l 0.
Proof.
  revert a. induction l as [|x l IH]; intros a; simpl; [lra |].
  rewrite (IH (a + x)), (IH (0 + x)). lra.
Qed.

Lemma sum_cons x l : sum (x :: l) = x + sum l.
Proof. unfold sum. simpl. rewrite fold_Rplus. lra. Qed.

Lemma sum_Permutation l l' : l ≡ₚ l' → sum l = sum l'.
Proof.
  induction 1 as [|x l l' _ IH|x y l|l l' l'' _ IH1 _ IH2]; [done | | |].
  - by rewrite !sum_cons, IH.
  - rewrite !sum_cons. lra.
  - by etrans.
Qed.

(** *** Sorting and popping *)

Lemma insert_desc_Permutation {A} (x : A * R) s : insert_desc x s ≡ₚ x :: s.
Proof.
  induction s as [|y s IH]; simpl; [done |].
  destruct (Rlt_dec x.2 y.2); [| done].
  rewrite IH. apply Permutation_swap.
Qed.

Lemma sorted_desc_Permutation {A} (l : list (A * R)) : sorted_desc l ≡ₚ l.
Proof.
  induction l as [|x l IH]; simpl; [done |].
  by rewrite insert_desc_Permutation, IH.
Qed.

Lemma insert_desc_descending {A} (x : A * R) s :
  descending s → descending (insert_desc x s).
Proof.
  induction 1 as [|y s Hs IH Hy]; simpl.
  - repeat constructor.
  - destruct (Rlt_dec x.2 y.2) as [Hlt | Hge].
    + constructor; [done |].
      rewrite insert_desc_Permutation. constructor; [lra | done].
    + constructor; [by constructor |].
      constructor; [lra |]. eapply Forall_impl; [exact Hy |].
      simpl. intros z ?. lra.
Qed.

Lemma sorted_desc_descending {A} (l : list (A * R)) : descending (sorted_desc l).
Proof.
  induction l as [|x l IH]; simpl; [constructor |].
  by apply insert_desc_descending.
Qed.

Lemma descending_last {A} (l : list (A * R)) m y :
  descending (l ++ [m]) → y ∈ l ++ [m] → m.2 <= y.2.
Proof.
  induction l as [|z l IH]; simpl.
  - intros _ ->%list_elem_of_singleton. lra.
  - intros Hs [-> | Hin]%elem_of_cons.
    + apply StronglySorted_inv in Hs as [_ Hall].
      eapply (proj1 (Forall_forall _ _)) in Hall; [exact Hall |].
      apply elem_of_app. right. by left.
    + apply StronglySorted_inv in Hs as [Hs _]. by apply IH.
Qed.

Lemma pop_Ok {A} (l : list A) x rest : IBEA.pop l = Ok (x, rest) ↔ l = rest ++ [x].
Proof.
  unfold IBEA.pop. split.
  - destruct (last l) as [y|] eqn:Hl; [| discriminate].
    intros [= <- <-]. apply last_Some in Hl as [l' ->].
    by rewrite removelast_last.
  - intros ->. by rewrite last_snoc, removelast_last.
Qed.

End PyFacts.

(** ** Facts about IBEA *)

Module IBEAFacts.

Import IBEA PyFacts.
#[local] Open Scope R_scope.

(** *** Objective scaling *)

Lemma fold_mark self l n done :
  fold_left (mark self) l (n, done)
  = ((n + length (filter (fun ind => charged self ind = true) l))%nat,
     done ++ (set_known_objectives true <$> l)).
Proof.
  revert n done. induction l as [|x l IH]; intros n done; simpl.
  - by rewrite Nat.add_0_r, app_nil_r.
  - unfold mark at 2. simpl. rewrite IH. rewrite <- app_assoc. simpl.
    rewrite filter_cons. destruct (charged self x); simpl.
    + f_equal. lia.
    + done.
Qed.

(** What [_scale_objectives] leaves behind when it returns. *)
Lemma scale_objectives_Ok self self' :
  _scale_objectives self = Ok self' →
  ∃ measured,
    Forall2 (fun o (m : (vector → R) * (R * R)) => m.1 = o ∧ m.2.1 <= m.2.2)
      (objectives self) measured
    ∧ self' = set_scaled_objectives
        ((fun m : (vector → R) * (R * R) => _scale m.1 m.2.1 m.2.2) <$> measured)
        (set_individuals (set_known_objectives true <$> individuals self)
           (set_cost (cost self + length (filter (fun ind => charged self ind = true)
                                     (individuals self)))%nat self)).
Proof.
  unfold _scale_objectives. rewrite fold_mark. simpl.
  intros (measured & Hm & [= <-])%bind_Ok. exists measured. split; [|done].
  apply comprehension_Forall2 in Hm.
  eapply Forall2_impl; [exact Hm |]. simpl.
  intros o m ((lo & hi) & Hmm & [= <-])%bind_Ok. simpl. split; [done |].
  unfold min_max in Hmm.
  apply bind_Ok in Hmm as (lo' & Hlo & (hi' & Hhi & [= <- <-])%bind_Ok).
  by eapply min_le_max.
Qed.

Lemma scale_total (o : vector → R) lo hi x :
  lo <= hi → _scale o lo hi x = Ok ((o x - lo) / (hi - lo + float_epsilon)).
Proof.
  intros Hle. unfold _scale. apply div_Ok.
  pose proof float_epsilon_pos. lra.
Qed.

Lemma fold_Rmax_zero l x : Forall (fun y => y = 0) (x :: l) → fold_left Rmax l x = 0.
Proof.
  intros Hall. destruct (fold_Rmax_spec l x) as [Hin _].
  by eapply (proj1 (Forall_forall _ _)) in Hall.
Qed.

(** C7, as amended.  With at least one objective, the indicator of a
    driver whose objectives have been scaled returns exactly 0 on [(x, x)],
    for every vector [x]. *)
Theorem indicator_reflexive_zero (self self' : IBEA) (x : vector) :
  _scale_objectives self = Ok self' →
  objectives self ≠ [] →
  EPlusIndicator self' x x = Ok 0.
Proof.
  intros Hs Hne. apply scale_objectives_Ok in Hs as (measured & Hm & ->).
  assert (Forall (fun m : (vector → R) * (R * R) => m.2.1 <= m.2.2) measured)
    as Hall.
  { clear -Hm. induction Hm as [|? ? ? ? [_ ?]]; by constructor. }
  unfold EPlusIndicator. simpl.
  rewrite (comprehension_fmap _ (fun _ => 0)).
  - destruct measured as [|m measured].
    { by apply Forall2_nil_inv_r in Hm. }
    simpl. f_equal. apply fold_Rmax_zero.
    apply Forall_cons; split; [done |]. apply Forall_fmap. by apply Forall_true.
  - apply Forall_fmap. eapply Forall_impl; [exact Hall |]. simpl.
    intros m Hle. rewrite (scale_total _ _ _ _ Hle). simpl. f_equal. lra.
Qed.

Lemma indicator_reflexive_zero_witness :
  ∃ self', _scale_objectives Examples.I.three = Ok self'
           ∧ EPlusIndicator self' [7] [7] = Ok 0.
Proof.
  eexists. split; [reflexivity |].
  apply (indicator_reflexive_zero Examples.I.three); [reflexivity | done].
Defined.

(** C7, counterexample.  A driver built over an empty objective set:
    the indicator of [(x, x)] is not 0, it raises [ValueError]. *)
Lemma indicator_no_objectives :
  ∃ self, __init__ [[1]] [] [] 1 1 1 1 1 1 (fun x => x) None = Ok self
          ∧ EPlusIndicator self [1] [1] = Raise ValueError
          ∧ EPlusIndicator self [1] [1] ≠ Ok 0.
Proof.
  eexists. split_and!; [vm_compute; reflexivity | reflexivity | discriminate].
Qed.

(** *** The cost counter *)

Lemma scale_objectives_cost self self' :
  _scale_objectives self = Ok self' →
  cost self'
  = (cost self
     + length (filter (fun ind => charged self ind = true) (individuals self)))%nat.
Proof. intros Hs. by apply scale_objectives_Ok in Hs as (measured & _ & ->). Qed.

(** [calculate_objectives] charges an individual exactly when it is neither
    evaluated nor archived. *)
Lemma calculate_objectives_cost ind self :
  cost (calculate_objectives ind self).2
  = (cost self
     + if known_objectives ind || archived self (v ind) then 0 else 1)%nat.
Proof.
  unfold calculate_objectives, archived.
  destruct (fitness_archive self) as [archive|]; simpl.
  - destruct (archive (v ind)) as [objs|]; destruct (known_objectives ind);
      simpl; lia.
  - destruct (known_objectives ind); simpl; lia.
Qed.

(** C4, at the failing input.  One individual whose objectives are
    already known, no archive: [_scale_objectives] adds 1 to the cost
    counter, where [calculate_objectives] on the same individual adds
    nothing. *)
Theorem scale_objectives_charges_evaluated :
  Forall (fun ind => known_objectives ind = true)
    (individuals Examples.I.evaluated)
  ∧ cost <$> _scale_objectives Examples.I.evaluated
    = Ok (S (cost Examples.I.evaluated))
  ∧ Forall (fun ind =>
              cost (calculate_objectives ind Examples.I.evaluated).2
              = cost Examples.I.evaluated)
      (individuals Examples.I.evaluated).
Proof.
  split_and!.
  - by repeat constructor.
  - reflexivity.
  - by repeat constructor.
Qed.


(** *** Fitness *)

Lemma elem_of_product {A B} (l1 : list A) (l2 : list B) x y :
  (x, y) ∈ product l1 l2 ↔ x ∈ l1 ∧ y ∈ l2.
Proof.
  unfold product. rewrite list_elem_of_bind. split.
  - intros (a & (b & [= -> ->] & ?)%list_elem_of_fmap & ?). done.
  - intros [? ?]. exists x. split; [| done]. apply list_elem_of_fmap. eauto.
Qed.

Lemma exp_term_ext s s' x2 x2' x1 x1' :
  same_caches s s' → ident x2 = ident x2' → ident x1 = ident x1' →
  exp_term s x2 x1 = exp_term s' x2' x1'.
Proof.
  intros (Hi & Hc & Hk) H2 H1. unfold exp_term, denominator.
  by rewrite Hi, Hc, Hk, H2, H1.
Qed.

Lemma fitness_of_ext s s' pop x x' :
  same_caches s s' → ident x = ident x' →
  fitness_of s pop x = fitness_of s' pop x'.
Proof.
  intros Hs Hx. unfold fitness_of. rewrite Hx.
  rewrite (comprehension_ext _ (fun x2 => e ← exp_term s' x2 x'; Ok (-1 * e)));
    [done |].
  apply Forall_forall. intros x2 _. by rewrite (exp_term_ext s s' x2 x2 x x').
Qed.

(** The three stages of [_calculate_fitness]. *)
Lemma calculate_fitness_Ok self s :
  _calculate_fitness self = Ok s →
  ∃ ind c' fit,
    for_each
      (fun (p : Individual * Individual) (d : gmap (nat * nat) R) =>
         i ← EPlusIndicator self (v p.1) (v p.2);
         Ok (<[(ident p.1, ident p.2) := i]> d))
      (product (individuals self) (individuals self)) ∅ = Ok ind
    ∧ max (Rabs <$> (map_to_list ind).*2) = Ok c'
    ∧ for_each
        (fun (x1 : Individual) (d : gmap nat R) =>
           f ← fitness_of (set_c c' (set_indicators ind self))
                 (individuals self) x1;
           Ok (<[ident x1 := f]> d))
        (individuals self) ∅ = Ok fit
    ∧ s = set_fitness fit (set_c c' (set_indicators ind self)).
Proof.
  unfold _calculate_fitness.
  intros (ind & Hind & (c' & Hc & (fit & Hfit & [= <-])%bind_Ok)%bind_Ok)%bind_Ok.
  by exists ind, c', fit.
Qed.

Lemma calculate_fitness_frame self s :
  _calculate_fitness self = Ok s →
  individuals s = individuals self ∧ population_size s = population_size self
  ∧ k s = k self ∧ mating_size s = mating_size self
  ∧ scaled_objectives s = scaled_objectives self.
Proof. intros (? & ? & ? & _ & _ & _ & ->)%calculate_fitness_Ok. done. Qed.



Lemma calculate_fitness_c self s :
  _calculate_fitness self = Ok s →
  max (Rabs <$> (map_to_list (indicators s)).*2) = Ok (c s).
Proof. by intros (ind & c' & fit & _ & ? & _ & ->)%calculate_fitness_Ok. Qed.

Lemma calculate_fitness_cached self s :
  _calculate_fitness self = Ok s → fitness_cached s.
Proof.
  intros (ind & c' & fit & _ & _ & Hfit & ->)%calculate_fitness_Ok x Hx.
  simpl in *.
  apply (fill_Ok ident
           (fitness_of (set_c c' (set_indicators ind self)) (individuals self)))
    in Hfit as [_ Hk].
  destruct (Hk (ident x)) as [(x' & f & ? & Hid & Hf & ?) | [Hno _]].
  - exists f. split; [done |]. rewrite <- Hf. by apply fitness_of_ext.
  - by destruct (Hno x).
Qed.


(** *** One removal *)

Section update.
Context {A : Type} (key : A → nat) (g : A → result R).

#[local] Abbreviation update_body :=
  (fun (x : A) (d : gmap nat R) =>
     old ← getitem d (key x); e ← g x; Ok (<[key x := old + e]> d)).

Lemma update_Ok l d0 d :
  for_each update_body l d0 = Ok d → NoDup (key <$> l) →
  (∀ x, x ∈ l → ∃ old e, d0 !! key x = Some old ∧ g x = Ok e
                         ∧ d !! key x = Some (old + e))
  ∧ (∀ i, i ∉ key <$> l → d !! i = d0 !! i).
Proof.
  revert d0. induction l as [|x l IH]; intros d0; simpl.
  - intros [= <-] _. split; [by intros x ?%elem_of_nil | done].
  - intros (d1 & (old & Hold%getitem_Ok & (e & He & [= <-])%bind_Ok)%bind_Ok
            & Hrest)%bind_Ok [Hx Hnd]%NoDup_cons.
    destruct (IH _ Hrest Hnd) as [Hin Hout]. split.
    + intros x' [-> | Hx']%elem_of_cons.
      * exists old, e. split_and!; [done..|].
        rewrite (Hout _ Hx). apply lookup_insert_eq.
      * destruct (Hin _ Hx') as (old' & e' & Hl & ? & ?).
        exists old', e'. split_and!; [| done..].
        rewrite lookup_insert_ne in Hl; [done |].
        intros Heq. apply Hx. rewrite Heq. by apply list_elem_of_fmap_2.
    + intros i Hi. apply not_elem_of_cons in Hi as [Hne Hi].
      rewrite (Hout _ Hi). by apply lookup_insert_ne.
Qed.

Lemma update_is_Ok l d0 :
  (∀ x, x ∈ l → is_Some (d0 !! key x) ∧ is_Ok (g x)) →
  is_Ok (for_each update_body l d0).
Proof.
  revert d0. induction l as [|x l IH]; intros d0 Hall; simpl; [by eexists |].
  destruct (Hall x) as [[old Hold] [e He]]; [by left |].
  apply getitem_Ok in Hold. rewrite Hold. simpl. rewrite He. simpl.
  apply IH. intros x' Hx'. destruct (Hall x') as [Hs ?]; [by right |].
  split; [| done]. destruct (decide (key x = key x')) as [-> | ?].
  - rewrite lookup_insert_eq. by eexists.
  - by rewrite lookup_insert_ne.
Qed.
End update.

Lemma remove_worst_Ok s s' :
  remove_worst s = Ok s' →
  ∃ keyed removed rest fit,
    comprehension (fun y => f ← getitem (fitness s) (ident y); Ok (y, f))
      (individuals s) = Ok keyed
    ∧ (sorted_desc keyed).*1 = rest ++ [removed]
    ∧ for_each
        (fun (x : Individual) (d : gmap nat R) =>
           old ← getitem d (ident x);
           e ← exp_term (set_individuals rest s) removed x;
           Ok (<[ident x := old + e]> d))
        rest (fitness s) = Ok fit
    ∧ s' = set_fitness fit (set_individuals rest s).
Proof.
  unfold remove_worst.
  intros (keyed & Hk & ([removed rest] & Hpop%pop_Ok
                        & (fit & Hfit & [= <-])%bind_Ok)%bind_Ok)%bind_Ok.
  by exists keyed, removed, rest, fit.
Qed.

Lemma keyed_spec s keyed :
  comprehension (fun y => f ← getitem (fitness s) (ident y); Ok (y, f))
    (individuals s) = Ok keyed →
  keyed.*1 = individuals s
  ∧ Forall (fun yf : Individual * R => fitness s !! ident yf.1 = Some yf.2) keyed.
Proof.
  intros H%comprehension_Forall2.
  induction H as [|y yf l k Hy _ [IH1 IH2]]; simpl; [by split |].
  apply bind_Ok in Hy as (f & Hf%getitem_Ok & [= <-]). simpl.
  split; [by f_equal | by constructor].
Qed.

(** What one iteration of the selection loop does. *)
Lemma remove_worst_spec s s' :
  remove_worst s = Ok s' →
  ∃ r f,
    individuals s ≡ₚ r :: individuals s'
    ∧ fitness s !! ident r = Some f
    ∧ (∀ y fy, y ∈ individuals s → fitness s !! ident y = Some fy → f <= fy)
    ∧ population_size s' = population_size s
    ∧ same_caches s s'.
Proof.
  intros (keyed & removed & rest & fit & Hk & Hs & _ & ->)%remove_worst_Ok.
  apply keyed_spec in Hk as [Hfst Hall].
  assert (∃ restk m, sorted_desc keyed = restk ++ [m] ∧ m.1 = removed
                     ∧ restk.*1 = rest) as (restk & m & Hsk & Hm & Hr).
  { apply fmap_app_inv in Hs as (restk & mk & ? & Hmk & ?).
    destruct mk as [|m [|? ?]]; try discriminate.
    injection Hmk as ->. by exists restk, m. }
  pose proof (sorted_desc_Permutation keyed) as Hp.
  exists removed, m.2. simpl. split_and!; [| | | done | done].
  - rewrite <- Hfst, <- Hp, Hsk, fmap_app. simpl. rewrite Hm, Hr.
    by rewrite Permutation_app_comm.
  - rewrite <- Hm.
    eapply (proj1 (Forall_forall _ _)) in Hall; [exact Hall |].
    rewrite <- Hp, Hsk. apply elem_of_app. right. by left.
  - intros y fy Hy Hfy. rewrite <- Hfst in Hy.
    apply list_elem_of_fmap in Hy as (yf & -> & Hyf).
    pose proof Hyf as Hyf'.
    eapply (proj1 (Forall_forall _ _)) in Hyf'; [| exact Hall].
    simpl in Hyf'. rewrite Hfy in Hyf'. injection Hyf' as ->.
    apply (descending_last restk).
    + rewrite <- Hsk. apply sorted_desc_descending.
    + by rewrite <- Hsk, Hp.
Qed.


Lemma sorted_keys_Permutation s keyed removed rest :
  comprehension (fun y => f ← getitem (fitness s) (ident y); Ok (y, f))
    (individuals s) = Ok keyed →
  (sorted_desc keyed).*1 = rest ++ [removed] →
  individuals s ≡ₚ removed :: rest.
Proof.
  intros [<- _]%keyed_spec Hs.
  rewrite <- (sorted_desc_Permutation keyed), Hs.
  by rewrite Permutation_app_comm.
Qed.

Lemma exp_term_cached s x2 x1 :
  fitness_cached s → x2 ∈ individuals s → x1 ∈ individuals s →
  ident x2 ≠ ident x1 → is_Ok (exp_term s x2 x1).
Proof.
  intros Hc H2 H1 Hne. destruct (Hc _ H1) as (f & _ & Hf).
  unfold fitness_of in Hf. apply bind_Ok in Hf as (ts & Hts & _).
  eapply (comprehension_elem_Ok _ _ _ x2) in Hts as [t Ht];
    [| by apply list_elem_of_filter].
  apply bind_Ok in Ht as (e & He & _). by exists e.
Qed.

Lemma remove_worst_total s :
  individuals s ≠ [] → NoDup (ident <$> individuals s) → fitness_cached s →
  is_Ok (remove_worst s).
Proof.
  intros Hne Hnd Hc. unfold remove_worst.
  destruct (comprehension_is_Ok
              (fun y => f ← getitem (fitness s) (ident y); Ok (y, f))
              (individuals s)) as [keyed Hk].
  { apply Forall_forall. intros y Hy. destruct (Hc _ Hy) as (f & Hf & _).
    apply getitem_Ok in Hf. rewrite Hf. by eexists. }
  rewrite Hk. simpl.
  destruct (last (sorted_desc keyed).*1) as [removed|] eqn:Hlast; last first.
  { apply last_None in Hlast. apply keyed_spec in Hk as [Hfst _].
    apply fmap_nil_inv in Hlast.
    pose proof (sorted_desc_Permutation keyed) as Hp. rewrite Hlast in Hp.
    apply Permutation_nil_l in Hp. subst keyed. by destruct Hne. }
  apply last_Some in Hlast as [rest Hs].
  pose proof (sorted_keys_Permutation _ _ _ _ Hk Hs) as Hp.
  unfold pop. rewrite Hs, last_snoc, removelast_last. simpl.
  rewrite Hp in Hnd. apply NoDup_cons in Hnd as [Hr Hnd].
  destruct (update_is_Ok ident (exp_term (set_individuals rest s) removed)
              rest (fitness s)) as [fit Hfit].
  { intros x Hx. assert (x ∈ individuals s) as Hx' by (rewrite Hp; by right).
    split.
    - destruct (Hc _ Hx') as (f & Hf & _). by eexists.
    - rewrite (exp_term_ext _ s removed removed x x); [| done..].
      apply exp_term_cached; [done | rewrite Hp; by left | done |].
      intros Heq. apply Hr. rewrite Heq. by apply list_elem_of_fmap_2. }
  rewrite Hfit. by eexists.
Qed.

(** The repair keeps the cache exact: after a removal the cached fitness
    is the sum over the individuals that remain. *)
Lemma remove_worst_cached s s' :
  NoDup (ident <$> individuals s) → fitness_cached s →
  remove_worst s = Ok s' → fitness_cached s'.
Proof.
  intros Hnd Hc (keyed & removed & rest & fit & Hk & Hs & Hfit & ->)%remove_worst_Ok.
  pose proof (sorted_keys_Permutation _ _ _ _ Hk Hs) as Hp.
  rewrite Hp in Hnd. apply NoDup_cons in Hnd as [Hr Hnd].
  apply update_Ok in Hfit as [Hin _]; [| done].
  intros x Hx. simpl in Hx. destruct (Hin _ Hx) as (old & e & Hold & He & Hnew).
  exists (old + e). simpl. split; [done |].
  assert (x ∈ individuals s) as Hx' by (rewrite Hp; by right).
  destruct (Hc _ Hx') as (f & Hf & Hsum). rewrite Hold in Hf. injection Hf as <-.
  assert (ident removed ≠ ident x) as Hne.
  { intros Heq. apply Hr. rewrite Heq. by apply list_elem_of_fmap_2. }
  unfold fitness_of in Hsum. apply bind_Ok in Hsum as (ts & Hts & [= Hold']).
  eapply comprehension_Permutation in Hts as (ts' & Hts' & Hperm).
  2: { rewrite Hp, filter_cons_True by done. reflexivity. }
  simpl in Hts'.
  apply bind_Ok in Hts' as (t & (e' & He' & [= <-])%bind_Ok
                            & (ts'' & Hts'' & [= <-])%bind_Ok).
  rewrite (exp_term_ext _ s removed removed x x) in He by done.
  rewrite He in He'. injection He' as <-.
  rewrite (fitness_of_ext _ s rest x x) by done.
  unfold fitness_of. rewrite Hts''. simpl. f_equal.
  rewrite <- Hold', (sum_Permutation _ _ Hperm), sum_cons. lra.
Qed.


(** *** The selection loop *)

Lemma remove_worst_length s s' :
  remove_worst s = Ok s' →
  length (individuals s) = S (length (individuals s')).
Proof. intros (r & f & Hp & _)%remove_worst_spec. by rewrite Hp. Qed.

(** The fuel handed to the loop by [_environmental_selection] suffices. *)
Lemma environmental_loop_fuel fuel s :
  (length (individuals s) ≤ fuel)%nat → is_Some (environmental_loop fuel s).
Proof.
  revert s. induction fuel as [|fuel IH]; intros s Hlen; simpl.
  - case_decide; [lia | by eexists].
  - case_decide; [| by eexists].
    destruct (remove_worst s) as [s'|e] eqn:Hs; [| by eexists].
    apply IH. apply remove_worst_length in Hs. lia.
Qed.

Lemma environmental_loop_spec fuel s :
  NoDup (ident <$> individuals s) → fitness_cached s →
  (length (individuals s) - population_size s ≤ fuel)%nat →
  ∃ removed s',
    environmental_loop fuel s = Some (Ok s')
    ∧ lowest_first s removed s'
    ∧ length removed = (length (individuals s) - population_size s)%nat
    ∧ length (individuals s')
      = Nat.min (length (individuals s)) (population_size s).
Proof.
  revert s. induction fuel as [|fuel IH]; intros s Hnd Hc Hlen; simpl.
  - case_decide; [lia |]. exists [], s. split_and!; [done | constructor | simpl; lia | lia].
  - case_decide as Hgt; last first.
    { exists [], s. split_and!; [done | constructor | simpl; lia | lia]. }
    destruct (remove_worst_total s) as [s1 Hs1]; [| done | done |].
    { intros Hnil. rewrite Hnil in Hgt. simpl in Hgt. lia. }
    rewrite Hs1.
    pose proof (remove_worst_cached _ _ Hnd Hc Hs1) as Hc1.
    destruct (remove_worst_spec _ _ Hs1) as (r & f & Hp & Hf & Hmin & Hps & _).
    assert (NoDup (ident <$> individuals s1)) as Hnd1.
    { rewrite Hp in Hnd. by apply NoDup_cons in Hnd as [_ ?]. }
    assert (length (individuals s) = S (length (individuals s1))) as Hl
      by by rewrite Hp.
    destruct (IH s1 Hnd1 Hc1) as (rs & s' & Hloop & Hlf & Hlen' & Hsize); [lia |].
    exists (r :: rs), s'. split_and!; [done | by econstructor | simpl; lia | lia].
Qed.

(** C5.  Once [_calculate_fitness] has run on a population of at least
    [population_size] distinct individuals, [_environmental_selection]
    returns with exactly [population_size] individuals; it dropped the
    others one per iteration, each time one whose cached fitness was the
    lowest of the population at that moment. *)
Theorem environmental_selection_size (self s : IBEA) :
  _calculate_fitness self = Ok s →
  NoDup (ident <$> individuals self) →
  (population_size self ≤ length (individuals self))%nat →
  ∃ removed s',
    _environmental_selection s = Ok s'
    ∧ lowest_first s removed s'
    ∧ length (individuals s') = population_size self
    ∧ length removed
      = (length (individuals self) - population_size self)%nat.
Proof.
  intros Hcalc Hnd Hsize.
  pose proof (calculate_fitness_cached _ _ Hcalc) as Hc.
  destruct (calculate_fitness_frame _ _ Hcalc) as (Hi & Hp & _).
  rewrite <- Hi, <- Hp in *.
  destruct (environmental_loop_spec (length (individuals s)) s Hnd Hc)
    as (removed & s' & Hloop & Hlf & Hlen & Hfinal); [lia |].
  exists removed, s'. unfold _environmental_selection. rewrite Hloop. simpl.
  split_and!; [done | done | lia | done].
Qed.



(** *** Totality of [_calculate_fitness] *)

Lemma scale_objectives_nonempty self self' :
  _scale_objectives self = Ok self' → objectives self ≠ [] →
  individuals self' ≠ [].
Proof.
  unfold _scale_objectives. rewrite fold_mark. simpl.
  intros (measured & Hm & [= <-])%bind_Ok Hne. simpl.
  destruct (objectives self) as [|o os]; [done |]. simpl in Hm.
  apply bind_Ok in Hm as (m & (mm & Hmm & _)%bind_Ok & _).
  unfold min_max in Hmm. apply bind_Ok in Hmm as (lo & Hlo & _).
  intros Hnil. rewrite Hnil in Hlo. discriminate.
Qed.

Lemma indicator_total (self self' : IBEA) (x y : vector) :
  _scale_objectives self = Ok self' → objectives self ≠ [] →
  is_Ok (EPlusIndicator self' x y).
Proof.
  intros Hs Hne. apply scale_objectives_Ok in Hs as (measured & Hm & ->).
  assert (Forall (fun m : (vector → R) * (R * R) => m.2.1 <= m.2.2) measured)
    as Hall.
  { clear -Hm. induction Hm as [|? ? ? ? [_ ?]]; by constructor. }
  unfold EPlusIndicator. simpl.
  rewrite (comprehension_fmap _
             (fun o : vector → result R =>
                match o x, o y with Ok a, Ok b => a - b | _, _ => 0 end)).
  - apply max_is_Ok. destruct measured; [| done].
    by apply Forall2_nil_inv_r in Hm.
  - apply Forall_fmap. eapply Forall_impl; [exact Hall |]. simpl.
    intros m Hle. by rewrite !(scale_total _ _ _ _ Hle).
Qed.

Lemma Rabs_max_nonneg l m : max (Rabs <$> l) = Ok m → 0 <= m.
Proof.
  intros [(x & -> & _)%list_elem_of_fmap _]%max_spec. apply Rabs_pos.
Qed.

Lemma denominator_nonzero s : 0 <= c s → 0 <= k s → denominator s ≠ 0.
Proof.
  intros Hc Hk. unfold denominator. pose proof float_epsilon_pos.
  apply Rabs_no_R0. nra.
Qed.

Lemma calculate_fitness_total self :
  individuals self ≠ [] →
  (∀ x y, is_Ok (EPlusIndicator self x y)) →
  0 <= k self →
  is_Ok (_calculate_fitness self).
Proof.
  intros Hne Hind Hk. unfold _calculate_fitness.
  destruct (fill_is_Ok
              (fun p : Individual * Individual => (ident p.1, ident p.2))
              (fun p => EPlusIndicator self (v p.1) (v p.2))
              (product (individuals self) (individuals self)) ∅)
    as [ind Hfill].
  { apply Forall_forall. intros p _. apply Hind. }
  rewrite Hfill. simpl.
  pose proof (fill_Ok _ _ _ _ _ Hfill) as [_ Hkeys].
  assert (∀ x y, x ∈ individuals self → y ∈ individuals self →
                 is_Some (ind !! (ident x, ident y))) as Hcov.
  { intros x y Hx Hy.
    destruct (Hkeys (ident x, ident y)) as [(? & i & _ & _ & _ & ->) | [Hno _]];
      [by eexists |].
    destruct (Hno (x, y)); [by apply elem_of_product | done]. }
  destruct (max_is_Ok (Rabs <$> (map_to_list ind).*2)) as [c' Hc'].
  { destruct (individuals self) as [|x l] eqn:Hl; [done |].
    destruct (Hcov x x) as [i Hi]; [by left | by left |].
    apply elem_of_map_to_list in Hi. intros Hnil.
    apply fmap_nil_inv, fmap_nil_inv in Hnil. rewrite Hnil in Hi.
    by apply elem_of_nil in Hi. }
  rewrite Hc'. simpl.
  match goal with
  | |- is_Ok (for_each ?body _ _ ≫= _) =>
      destruct (fill_is_Ok ident
                  (fitness_of (set_c c' (set_indicators ind self))
                     (individuals self)) (individuals self) ∅) as [fit Hfit]
  end.
  { apply Forall_forall. intros x1 Hx1. unfold fitness_of.
    destruct (comprehension_is_Ok
                (fun x2 => e ← exp_term (set_c c' (set_indicators ind self)) x2 x1;
                           Ok (-1 * e))
                (filter (fun x2 => ident x2 ≠ ident x1) (individuals self)))
      as [ts Hts]; [| rewrite Hts; by eexists].
    apply Forall_forall. intros x2 [_ Hx2]%list_elem_of_filter.
    unfold exp_term. simpl. destruct (Hcov x2 x1 Hx2 Hx1) as [i Hi].
    apply getitem_Ok in Hi. rewrite Hi. simpl.
    rewrite div_Ok; [by eexists |].
    apply denominator_nonzero; [| done]. simpl. by eapply Rabs_max_nonneg. }
  rewrite Hfit. by eexists.
Qed.





Lemma indicator_ext s s' x y :
  scaled_objectives s = scaled_objectives s' →
  EPlusIndicator s x y = EPlusIndicator s' x y.
Proof. unfold EPlusIndicator. by intros ->. Qed.

(** *** A worked population: three points on a line *)

Import Examples.I.

Lemma three_scale : _scale_objectives three = Ok three_scaled.
Proof.
  unfold _scale_objectives. cbn.
  replace (Rmin (Rmin 0 1) 2) with 0 by (unfold Rmin; repeat destruct Rle_dec; lra).
  replace (Rmax (Rmax 0 1) 2) with 2 by (unfold Rmax; repeat destruct Rle_dec; lra).
  reflexivity.
Qed.

Section line.
Variable self : IBEA.
Hypothesis Hscaled : scaled_objectives self = [_scale first_coordinate 0 2].
Hypothesis Hk : k self = 1.

Lemma line_indicator x y :
  EPlusIndicator self x y
  = Ok (scaled (first_coordinate x) - scaled (first_coordinate y)).
Proof.
  unfold EPlusIndicator. rewrite Hscaled. simpl. unfold _scale.
  rewrite !div_Ok by (unfold float_epsilon; lra). done.
Qed.

Lemma line_total : individuals self ≠ [] → is_Ok (_calculate_fitness self).
Proof.
  intros Hne. apply calculate_fitness_total; [done | | rewrite Hk; lra].
  intros x y. rewrite line_indicator. by eexists.
Qed.

Variable s : IBEA.
Hypothesis Hcalc : _calculate_fitness self = Ok s.
Hypothesis Hnd : NoDup (ident <$> individuals self).




End line.




Lemma three_nodup : NoDup (ident <$> individuals three_scaled).
Proof. apply (bool_decide_unpack _). by vm_compute. Qed.










Lemma environmental_selection_size_witness :
  ∃ s0 removed s',
    _calculate_fitness three_scaled = Ok s0
    ∧ NoDup (ident <$> individuals three_scaled)
    ∧ _environmental_selection s0 = Ok s'
    ∧ lowest_first s0 removed s'
    ∧ length (individuals s') = 2%nat
    ∧ length removed = 1%nat.
Proof.
  destruct (line_total three_scaled eq_refl eq_refl) as [s0 Hs0]; [done |].
  destruct (environmental_selection_size three_scaled s0 Hs0 three_nodup
              ltac:(simpl; lia)) as (removed & s' & Hsel & Hlf & Hlen & Hrm).
  exists s0, removed, s'. split_and!; [done | apply three_nodup | done..].
Defined.


(** *** Mating selection *)

Lemma comprehension_rnd_Ok {A B G} (f : A → G → result (B * G)) l g ys g' :
  comprehension_rnd f l g = Ok (ys, g') →
  length ys = length l
  ∧ Forall (fun y => ∃ x ga gb, x ∈ l ∧ f x ga = Ok (y, gb)) ys.
Proof.
  revert g ys. induction l as [|x l IH]; intros g ys; simpl.
  - intros [= <- <-]. split; [done | constructor].
  - intros ([y g1] & Hy & ([ys' g2] & Hys & [= <- <-])%bind_Ok)%bind_Ok.
    destruct (IH _ _ Hys) as [Hlen Hall]. split; [simpl; by f_equal |].
    constructor.
    + exists x, g, g1. split; [by left | done].
    + eapply Forall_impl; [exact Hall |]. simpl.
      intros y' (x' & ga & gb & ? & ?). exists x', ga, gb. split; [by right | done].
Qed.

Section tournament.
Context `{Random G}.

Lemma better_spec p s x1 x2 g m g' :
  better p s x1 x2 g = Ok (m, g') →
  ∃ r f1 f2 fm,
    random g = (r, g')
    ∧ fitness s !! ident x1 = Some f1
    ∧ fitness s !! ident x2 = Some f2
    ∧ (m = x1 ∨ m = x2)
    ∧ fitness s !! ident m = Some fm
    ∧ (r < p → fm = Rmin f1 f2)
    ∧ (¬ r < p → fm = Rmax f1 f2).
Proof.
  unfold better. destruct (random g) as [r g1].
  destruct (Rlt_dec r p) as [Hlt | Hge].
  - intros (f1 & Hf1%getitem_Ok & (f2 & Hf2%getitem_Ok & [= <- <-])%bind_Ok)%bind_Ok.
    destruct (Rlt_dec f1 f2) as [Hlt' | Hge'].
    + exists r, f1, f2, f1.
      split_and!; [done | done | done | by left | done | | by intros []].
      intros _. rewrite Rmin_left; lra.
    + exists r, f1, f2, f2.
      split_and!; [done | done | done | by right | done | | by intros []].
      intros _. rewrite Rmin_right; lra.
  - intros (f1 & Hf1%getitem_Ok & (f2 & Hf2%getitem_Ok & [= <- <-])%bind_Ok)%bind_Ok.
    destruct (Rgt_dec f1 f2) as [Hgt | Hle].
    + exists r, f1, f2, f1.
      split_and!; [done | done | done | by left | done | by intros ? |].
      intros _. rewrite Rmax_left; lra.
    + exists r, f1, f2, f2.
      split_and!; [done | done | done | by right | done | by intros ? |].
      intros _. rewrite Rmax_right; lra.
Qed.

Lemma tournament_spec p s g m g' :
  tournament p s g = Ok (m, g') → inverted_tournament p s m.
Proof.
  unfold tournament.
  intros ([x1 g1] & H1 & ([x2 g2] & H2 & Hb)%bind_Ok)%bind_Ok.
  apply better_spec in Hb as (r & f1 & f2 & fm & ? & ? & ? & ? & ? & ? & ?).
  by exists g, g1, g2, g', x1, x2, r, f1, f2, fm.
Qed.

Lemma mating_selection_spec p s g s' g' :
  _mating_selection p s g = Ok (s', g') →
  ∃ chosen,
    s' = set_mating_individuals chosen s
    ∧ length chosen = Z.to_nat (2 * mating_size s)
    ∧ Forall (inverted_tournament p s) chosen.
Proof.
  unfold _mating_selection.
  intros ([chosen g1] & Hc & [= <- <-])%bind_Ok. exists chosen.
  apply comprehension_rnd_Ok in Hc as [Hlen Hall].
  rewrite length_seq in Hlen. split_and!; [done | done |].
  eapply Forall_impl; [exact Hall |]. simpl.
  intros m (_ & ga & gb & _ & Ht). by eapply tournament_spec.
Qed.

Context `{Operators G}.

End tournament.

(** *** A generation of a one-individual population *)

Lemma environmental_selection_noop s :
  (length (individuals s) ≤ population_size s)%nat →
  _environmental_selection s = Ok s.
Proof.
  intros Hle. unfold _environmental_selection.
  destruct (length (individuals s)) eqn:Hl; simpl; rewrite ?Hl;
    by rewrite decide_False by lia.
Qed.

Lemma better_same `{Random G} p s x (g : G) :
  is_Some (fitness s !! ident x) → better p s x x g = Ok (x, (random g).2).
Proof.
  intros [f Hf%getitem_Ok]. unfold better. destruct (random g) as [r g'].
  rewrite Hf. simpl.
  destruct (Rlt_dec r p); [destruct (Rlt_dec f f) | destruct (Rgt_dec f f)]; done.
Qed.

Lemma tournament_single p s x (g : nat) :
  individuals s = [x] → is_Some (fitness s !! ident x) →
  @tournament nat Examples.counter p s g = Ok (x, S (S (S g))).
Proof.
  intros Hi Hf. unfold tournament. rewrite Hi.
  cbn -[better Nat.modulo].
  repeat (rewrite Nat.mod_1_r; cbn -[better Nat.modulo]).
  by rewrite better_same.
Qed.

Lemma scale_objectives_total self :
  individuals self ≠ [] → is_Ok (_scale_objectives self).
Proof.
  intros Hne. unfold _scale_objectives. rewrite fold_mark. simpl.
  match goal with
  | |- is_Ok (comprehension ?f ?l ≫= _) =>
      destruct (comprehension_is_Ok f l) as [measured Hm]
  end.
  - apply Forall_forall. intros o _. unfold min_max.
    destruct (individuals self) as [|x l]; [done |]. simpl. by eexists.
  - rewrite Hm. by eexists.
Qed.

Lemma breeding_indicator x y : is_Ok (EPlusIndicator breeding x y).
Proof.
  unfold EPlusIndicator. simpl. unfold _scale.
  rewrite !div_Ok by (pose proof float_epsilon_pos; lra). by eexists.
Qed.

Lemma breeding_step :
  ∃ self' g', @_next_step nat Examples.counter clone breeding 0%nat = Ok (self', g').
Proof.
  destruct (calculate_fitness_total breeding) as [s0 Hs0];
    [done | apply breeding_indicator | simpl; lra |].
  destruct (calculate_fitness_cached _ _ Hs0 (mkIndividual 0 [1] true))
    as (f & Hf & _).
  { destruct (calculate_fitness_frame _ _ Hs0) as (-> & _). by left. }
  pose proof Hs0 as Hs0'.
  apply calculate_fitness_Ok in Hs0' as (ind & c' & fit & _ & _ & _ & ->).
  simpl in Hf.
  unfold _next_step. rewrite Hs0. cbn [mbind result_bind].
  rewrite environmental_selection_noop by (simpl; lia).
  cbn [mbind result_bind].
  set (s0 := set_fitness fit (set_c c' (set_indicators ind breeding))).
  assert (@_mating_selection nat Examples.counter (9 / 10) s0 0%nat
          = Ok (set_mating_individuals
                  [mkIndividual 0 [1] true; mkIndividual 0 [1] true] s0, 6%nat))
    as ->.
  { unfold _mating_selection.
    change (seq 0 (Z.to_nat (2 * mating_size s0))) with [0%nat; 1%nat].
    cbn [comprehension_rnd].
    repeat (rewrite (tournament_single _ s0 (mkIndividual 0 [1] true))
              by (try done; simpl; by eexists);
            cbn [mbind result_bind]).
    reflexivity. }
  cbn [mbind result_bind].
  unfold _crossover. 
  change (Z.to_nat (mating_size (set_mating_individuals _ s0))) with 1%nat.
  cbn [seq comprehension_rnd mating_individuals set_mating_individuals lookup list_lookup Init.Nat.add mbind result_bind crossover clone v].
  cbn [_mutation mutation_loop mutate clone fmap list_fmap].
  match goal with
  | |- ∃ _ _, _scale_objectives ?s ≫= _ = _ =>
      destruct (scale_objectives_total s) as [s5 Hs5]; [done |]; rewrite Hs5
  end.
  by eexists _, _.
Qed.

(** *** A generation of the three points on a line *)







End IBEAFacts.

(** ** Facts about SMS-EMOA *)

Module SMSEMOAFacts.
Import SMSEMOA PyFacts.

(** *** The peeling loop of [nd_sort] breaks *)

Lemma get_how_many_bump y d s :
  get_how_many (bump y d s) y = (get_how_many s y + d)%Z.
Proof. unfold get_how_many at 1, bump. simpl. by rewrite lookup_insert_eq. Qed.

Lemma release_pending n s y :
  (pending (release n s y) + length (get_front (release n s y) (S n))
   ≤ pending s + length (get_front s (S n)))%nat
  ∧ (∀ m, m ≠ S n → get_front (release n s y) m = get_front s m)
  ∧ dominated_by (release n s y) = dominated_by s.
Proof.
  unfold release. rewrite get_how_many_bump.
  set (old := get_how_many s y).
  assert (how_many_dominates s !! ident y = Some old
          ∨ how_many_dominates s !! ident y = None ∧ old = 0%Z) as Hold.
  { unfold old, get_how_many.
    destruct (how_many_dominates s !! ident y); [by left | by right]. }
  case_bool_decide as Hz.
  - (* the counter drops to zero: [y] joins the next front *)
    destruct Hold as [Hold | [_ Hold]]; [| lia].
    assert (old = 1%Z) as Hone by lia.
    unfold pending, get_front, append_front, bump. simpl. fold old.
    rewrite lookup_insert_eq. simpl. split_and!; [| | done].
    + rewrite map_filter_insert_False by (simpl; lia).
      rewrite map_filter_delete, map_size_delete_Some.
      2: { exists old. apply map_lookup_filter_Some. split; [done | simpl; lia]. }
      rewrite length_app. unfold get_front. simpl.
      assert (0 < size (filter (fun kv : nat * Z => (1 <= kv.2)%Z)
                          (how_many_dominates s)))%nat; [| lia].
      apply Nat.neq_0_lt_0. intros Hsz%map_size_empty_inv.
      assert (filter (fun kv : nat * Z => (1 <= kv.2)%Z)
                (how_many_dominates s) !! ident y = Some old) as Hl.
      { apply map_lookup_filter_Some. split; [done | simpl; lia]. }
      by rewrite Hsz, lookup_empty in Hl.
    + intros m Hm. by rewrite lookup_insert_ne.
  - unfold pending, get_front, bump. simpl. fold old.
    split_and!; [| done | done].
    destruct (decide (1 <= old + -1)%Z) as [Hge | Hlt].
    + destruct Hold as [Hold | [_ Hold]]; [| lia].
      rewrite map_filter_insert_True by done.
      rewrite map_size_insert_Some; [lia |].
      exists old. apply map_lookup_filter_Some. split; [done | simpl; lia].
    + rewrite map_filter_insert_False by done.
      rewrite map_filter_delete, map_size_delete_None; [lia |].
      apply map_lookup_filter_None. right. intros z Hz' Hpos. simpl in Hpos.
      destruct Hold as [Hold | [Hold _]]; [| by rewrite Hold in Hz'].
      rewrite Hold in Hz'. injection Hz' as <-. lia.
Qed.

Lemma fold_release_pending n l s :
  (pending (fold_left (release n) l s)
   + length (get_front (fold_left (release n) l s) (S n))
   ≤ pending s + length (get_front s (S n)))%nat
  ∧ (∀ m, m ≠ S n → get_front (fold_left (release n) l s) m = get_front s m)
  ∧ dominated_by (fold_left (release n) l s) = dominated_by s.
Proof.
  revert s. induction l as [|y l IH]; intros s; simpl; [done |].
  destruct (release_pending n s y) as (H1 & H2 & H3).
  destruct (IH (release n s y)) as (IH1 & IH2 & IH3).
  split_and!; [lia | | congruence].
  intros m Hm. by rewrite IH2, H2.
Qed.

Lemma fold_peel_one_pending n l s :
  (pending (fold_left (peel_one n) l s)
   + length (get_front (fold_left (peel_one n) l s) (S n))
   ≤ pending s + length (get_front s (S n)))%nat
  ∧ (∀ m, m ≠ S n → get_front (fold_left (peel_one n) l s) m = get_front s m).
Proof.
  revert s. induction l as [|x l IH]; intros s; simpl; [done |].
  unfold peel_one at 2 4 5.
  destruct (fold_release_pending n (get_dominated_by s x) s) as (H1 & H2 & _).
  destruct (IH (fold_left (release n) (get_dominated_by s x) s)) as (IH1 & IH2).
  split; [lia |]. intros m Hm. by rewrite IH2, H2.
Qed.

Lemma peel_fuel fuel n s :
  (∀ m, n < m → get_front s m = []) →
  get_front s n = [] ∨ pending s < fuel →
  is_Some (peel fuel n s).
Proof.
  revert n s. induction fuel as [|fuel IH]; intros n s Hinv Hfuel; simpl.
  - case_bool_decide as Hlen; [by eexists |].
    destruct Hfuel as [Hnil | ?]; [| lia]. by rewrite Hnil in Hlen.
  - case_bool_decide as Hlen; [by eexists |].
    destruct Hfuel as [Hnil | Hlt]; [by rewrite Hnil in Hlen |].
    destruct (fold_peel_one_pending n (get_front s n) s) as (Hpend & Hframe).
    rewrite (Hinv (S n)) in Hpend by lia. simpl in Hpend.
    apply IH.
    + intros m Hm. rewrite Hframe by lia. apply Hinv. lia.
    + destruct (get_front (fold_left (peel_one n) (get_front s n) s) (S n));
        [by left | right; simpl in Hpend; lia].
Qed.


Lemma fold_compare_front x l s : front (fold_left (compare x) l s) = front s.
Proof.
  revert s. induction l as [|y l IH]; intros s; simpl; [done |].
  rewrite IH. unfold compare.
  destruct (dominates (objectives x) (objectives y)); [done |].
  by destruct (dominates (objectives y) (objectives x)).
Qed.

Lemma fold_classify_front pop l s m :
  m ≠ 1%nat → get_front (fold_left (classify pop) l s) m = get_front s m.
Proof.
  intros Hm. revert s. induction l as [|x l IH]; intros s; simpl; [done |].
  rewrite IH. unfold classify, get_front.
  case_bool_decide; simpl; rewrite ?lookup_insert_ne by done;
    by rewrite fold_compare_front.
Qed.

(** The fuel that [nd_sort] hands to the peeling loop suffices. *)
Lemma nd_sort_fuel pop :
  peel (S (size (how_many_dominates (nd_sort_start pop)))) 1 (nd_sort_start pop)
  = Some (nd_sort pop).
Proof.
  unfold nd_sort.
  destruct (peel_fuel (S (size (how_many_dominates (nd_sort_start pop)))) 1
              (nd_sort_start pop)) as [s ->]; [| | done].
  - intros m Hm. unfold nd_sort_start. rewrite fold_classify_front by lia.
    unfold get_front. simpl. by rewrite lookup_empty.
  - right. unfold pending.
    pose proof (map_subseteq_size _ _
                  (map_filter_subseteq (fun kv : nat * Z => (1 <= kv.2)%Z)
                     (how_many_dominates (nd_sort_start pop)))).
    lia.
Qed.

(** *** [finish] *)



(** *** Reduction *)

Lemma min_tuple_distinct a b l :
  ident a.1 ≠ ident b.1 → min_tuple (a :: b :: l) = Raise TypeError.
Proof.
  intros Hne. simpl. unfold tuple_lt.
  rewrite bool_decide_false; [done |]. by intros ?.
Qed.

(** What [reduce_population] hands back, when it returns, is one individual
    of the front numbered [len(pop)]; [steps] stores it as the population. *)
Lemma insertion_stores_individual `{Random G, Driver G, HyperVolume}
  (self self' : SMSEMOA) (g g' : G) (n : nat) :
  insertion self g = Ok (self', n, g') →
  ∃ x, __population self' = PopIndividual x.
Proof.
  unfold insertion.
  intros ([[new s1] g1] & _ & Hrest)%bind_Ok. simpl in Hrest.
  apply bind_Ok in Hrest as (pop & _ & (r & _ & [= <- _ _])%bind_Ok).
  by exists r.
Qed.

Import Examples Examples.S.

(** C2, at the failing inputs.  A steady-state step on two mutually
    non-dominated individuals raises [ValueError] instead of leaving two
    individuals: the front numbered 3 that [reduce_population] reads is
    empty.  On a chain of two individuals the step completes, and leaves
    as population the offspring itself, a bare individual that [finish]
    cannot iterate. *)
Theorem steps_lose_population :
  @steps nat counter worse counting 1 None trade_off 0%nat = Raise ValueError
  ∧ ∃ self' cost g',
      @steps nat counter worse counting 1 None chain 0%nat
      = Ok (self', cost, g')
      ∧ __population self' = PopIndividual (mkIndividual 2 [3; 3]%Q [3; 3]%Q)
      ∧ (finish self').1 = Raise TypeError.
Proof.
  split; [by vm_compute |].
  eexists _, _, _. split; [by vm_compute |]. split; by vm_compute.
Qed.

(** C3, at the failing input.  Two mutually non-dominated individuals:
    the worst front holds both, yet [reduce_population] raises
    [ValueError], whatever the hypervolume, because it reads the front
    numbered 2; and the minimum it would take over
    [(individual, contribution)] tuples raises [TypeError] as soon as two
    distinct individuals are compared. *)
Theorem reduce_population_wrong_front :
  let a := mkIndividual 0 [1; 2]%Q [1; 2]%Q in
  let b := mkIndividual 1 [2; 1]%Q [2; 1]%Q in
  get_front (nd_sort [a; b]) 1 = [a; b]
  ∧ get_front (nd_sort [a; b]) 2 = []
  ∧ (∀ hv : HyperVolume, reduce_population trade_off [a; b] = Raise ValueError)
  ∧ (∀ q1 q2 : Q, min_tuple [(a, q1); (b, q2)] = Raise TypeError).
Proof.
  intros a b. split_and!.
  - by vm_compute.
  - by vm_compute.
  - intros hv. by vm_compute.
  - intros q1 q2. by apply min_tuple_distinct.
Qed.


End SMSEMOAFacts.

(** ** Facts about the migration proxy *)

Module ProxyFacts.
Import IBEA Proxy PyFacts.

(** C9, as amended.  [assimilate_immigrants] appends the objects it is
    given, themselves and in order, to the list object that the proxy
    shares with its driver: whoever holds the reference reads the old
    population followed by the emigrants. *)
Theorem assimilate_immigrants_extends (self : IBEAImgaProxy)
  (emigrants : list pyobject) (h : store) :
  deref (assimilate_immigrants self emigrants h) (individuals self)
  = deref h (individuals self) ++ emigrants.
Proof.
  unfold assimilate_immigrants, deref, store in *. by rewrite lookup_insert_eq.
Qed.

(** C9, counterexample.  Handed the vector [[1]], the proxy does not wrap
    it: the population ends with the bare vector.  Handed an evaluated
    individual, it appends that very object, still marked evaluated. *)
Lemma assimilate_immigrants_does_not_wrap :
  let self := mkProxy 0 0 in
  let h : store := {[ 0%nat := [] ]} in
  let e := mkIndividual 7 [1%R] true in
  ¬ wraps_as_new (deref h 0)
      (deref (assimilate_immigrants self [PyVector [1%R]] h) 0) [[1%R]]
  ∧ deref (assimilate_immigrants self [PyIndividual e] h) 0 = [PyIndividual e]
  ∧ current_population self (assimilate_immigrants self [PyVector [1%R]] h)
    = Raise AttributeError.
Proof.
  intros self h e.
  assert (∀ emigrants,
            deref (assimilate_immigrants self emigrants h) 0 = emigrants)
    as Hext.
  { intros emigrants. unfold assimilate_immigrants, deref, store in *.
    simpl. by rewrite lookup_insert_eq. }
  split_and!.
  - intros (new & Hnew & _ & _).
    rewrite Hext in Hnew.
    destruct new as [|x new]; discriminate.
  - by rewrite Hext.
  - unfold current_population.
    change (individuals self) with 0%nat. by rewrite Hext.
Qed.

End ProxyFacts.

(** ** Malformed configuration *)

Module MalformedFacts.
Import IBEA PyFacts IBEAFacts.
#[local] Open Scope R_scope.

Lemma calculate_fitness_empty self :
  individuals self = [] → _calculate_fitness self = Raise ValueError.
Proof.
  intros Hnil. unfold _calculate_fitness. rewrite Hnil. simpl.
  by rewrite map_to_list_empty.
Qed.

Lemma calculate_fitness_no_objectives self :
  individuals self ≠ [] → scaled_objectives self = [] →
  _calculate_fitness self = Raise ValueError.
Proof.
  intros Hne Hnil. unfold _calculate_fitness.
  destruct (individuals self) as [|x l]; [done |]. simpl.
  assert (∀ a b, EPlusIndicator self a b = Raise ValueError) as He
    by (intros; unfold EPlusIndicator; by rewrite Hnil).
  by rewrite He.
Qed.

Lemma scale_objectives_empty self :
  individuals self = [] →
  match objectives self with
  | [] => is_Ok (_scale_objectives self)
  | _ :: _ => _scale_objectives self = Raise ValueError
  end.
Proof.
  intros Hnil. unfold _scale_objectives. rewrite Hnil. simpl.
  destruct (objectives self); simpl; [by eexists | done].
Qed.

Lemma mating_selection_empty `{Random G} p self (g : G) :
  individuals self = [] →
  _mating_selection p self g
  = if decide (0 < mating_size self)%Z then Raise IndexError
    else Ok (set_mating_individuals [] self, g).
Proof.
  intros Hnil. unfold _mating_selection. case_decide as Hm.
  - destruct (Z.to_nat (2 * mating_size self)) as [|n] eqn:Hn; [lia |].
    simpl. unfold tournament. by rewrite Hnil.
  - replace (Z.to_nat (2 * mating_size self)) with 0%nat by lia. done.
Qed.

(** C8, as amended.  Malformed configuration is not validated, and mostly
    surfaces as an exception.  On a driver without individuals
    [_calculate_fitness] raises [ValueError], [_scale_objectives] raises
    [ValueError] unless there is no objective either, [_mating_selection]
    raises [IndexError] as soon as a draw is asked for, and only
    [_environmental_selection] is a no-op; with individuals but no
    objective [_calculate_fitness] raises [ValueError]; [generate] of
    SMS-EMOA raises [ValueError] on fewer than two individuals. *)
Theorem malformed_configuration_raises `{Random G, SMSEMOA.Driver G}
  (empty blind : IBEA) (sms : SMSEMOA.SMSEMOA)
  (few : list SMSEMOA.Individual) (p : R) (g : G) :
  individuals empty = [] →
  individuals blind ≠ [] →
  scaled_objectives blind = [] →
  (length few < 2)%nat →
  _calculate_fitness empty = Raise ValueError
  ∧ match objectives empty with
    | [] => is_Ok (_scale_objectives empty)
    | _ :: _ => _scale_objectives empty = Raise ValueError
    end
  ∧ _environmental_selection empty = Ok empty
  ∧ _mating_selection p empty g
    = (if decide (0 < mating_size empty)%Z then Raise IndexError
       else Ok (set_mating_individuals [] empty, g))
  ∧ _calculate_fitness blind = Raise ValueError
  ∧ SMSEMOA.generate sms (SMSEMOA.PopList few) g = Raise ValueError.
Proof.
  intros Hempty Hblind Hnone Hfew. split_and!.
  - by apply calculate_fitness_empty.
  - by apply scale_objectives_empty.
  - apply environmental_selection_noop. rewrite Hempty. simpl. lia.
  - by apply mating_selection_empty.
  - by apply calculate_fitness_no_objectives.
  - unfold SMSEMOA.generate. by rewrite decide_True.
Qed.

Lemma malformed_configuration_raises_witness :
  _calculate_fitness Examples.I.deserted = Raise ValueError
  ∧ _scale_objectives Examples.I.deserted = Raise ValueError
  ∧ _environmental_selection Examples.I.deserted = Ok Examples.I.deserted
  ∧ @_mating_selection nat Examples.counter (9 / 10) Examples.I.deserted 0%nat
    = Raise IndexError
  ∧ _calculate_fitness Examples.I.blind = Raise ValueError
  ∧ @SMSEMOA.generate nat Examples.counter Examples.S.worse
      Examples.S.trade_off (SMSEMOA.PopList []) 0%nat = Raise ValueError.
Proof.
  exact (@malformed_configuration_raises nat Examples.counter Examples.S.worse
           Examples.I.deserted Examples.I.blind Examples.S.trade_off []
           (9 / 10) 0%nat eq_refl ltac:(discriminate) eq_refl
           ltac:(simpl; lia)).
Defined.

(** C8, counterexample.  An empty population does not give an empty
    result: computing the fitness raises, and so does drawing parents. *)
Lemma empty_population_raises :
  _calculate_fitness Examples.I.deserted = Raise ValueError
  ∧ @_mating_selection nat Examples.counter (9 / 10) Examples.I.deserted 0%nat
    = Raise IndexError
  ∧ @SMSEMOA.generate nat Examples.counter Examples.S.worse
      Examples.S.trade_off (SMSEMOA.PopList []) 0%nat = Raise ValueError.
Proof.
  split_and!.
  - by apply calculate_fitness_empty.
  - by rewrite mating_selection_empty.
  - reflexivity.
Qed.

End MalformedFacts.

(** ** More facts about IBEA *)

Module IBEAMore.
Import IBEA PyFacts IBEAFacts.
#[local] Open Scope R_scope.

(** *** Scaling *)

(** The ranges that [_scale_objectives] measures are the minimum and the
    maximum of each objective over the population. *)
Lemma scale_objectives_measured self self' :
  _scale_objectives self = Ok self' →
  ∃ measured,
    Forall2 (fun o (m : (vector → R) * (R * R)) =>
               m.1 = o
               ∧ min ((fun ind => o (v ind)) <$> individuals self') = Ok m.2.1
               ∧ max ((fun ind => o (v ind)) <$> individuals self') = Ok m.2.2)
      (objectives self) measured
    ∧ scaled_objectives self'
      = (fun m : (vector → R) * (R * R) => _scale m.1 m.2.1 m.2.2) <$> measured
    ∧ individuals self' = set_known_objectives true <$> individuals self.
Proof.
  unfold _scale_objectives. rewrite fold_mark. simpl.
  intros (measured & Hm & [= <-])%bind_Ok. exists measured. simpl.
  split_and!; [| done | done].
  apply comprehension_Forall2 in Hm.
  eapply Forall2_impl; [exact Hm |]. simpl.
  intros o m ((lo & hi) & Hmm & [= <-])%bind_Ok. simpl.
  unfold min_max in Hmm.
  by apply bind_Ok in Hmm as (lo' & Hlo & (hi' & Hhi & [= <- <-])%bind_Ok).
Qed.

Lemma unit_quotient a b : 0 <= a <= b → 0 <= a / (b + float_epsilon) <= 1.
Proof.
  intros [Ha Hab]. pose proof float_epsilon_pos as He.
  assert (0 < b + float_epsilon) as Hpos by lra.
  pose proof (Rinv_0_lt_compat _ Hpos) as Hinv.
  assert ((b + float_epsilon) * / (b + float_epsilon) = 1) as Hone
    by (apply Rinv_r; lra).
  unfold Rdiv. split; [nra |]. nra.
Qed.

Lemma scaled_objectives_range_aux (self self' : IBEA)
  (x : Individual) (o : vector → result R) :
  _scale_objectives self = Ok self' →
  x ∈ individuals self' →
  o ∈ scaled_objectives self' →
  ∃ y, o (v x) = Ok y ∧ 0 <= y <= 1.
Proof.
  intros (measured & Hm & Hs & Hi)%scale_objectives_measured Hx Ho.
  rewrite Hs in Ho. apply list_elem_of_fmap in Ho as (m & -> & Hmin).
  assert (min ((fun ind => m.1 (v ind)) <$> individuals self') = Ok m.2.1
          ∧ max ((fun ind => m.1 (v ind)) <$> individuals self') = Ok m.2.2)
    as [Hlo Hhi].
  { clear -Hm Hmin. induction Hm as [|o m' os ms (<- & ? & ?) _ IH];
      [by apply elem_of_nil in Hmin |].
    apply elem_of_cons in Hmin as [-> | Hmin]; [done | by apply IH]. }
  apply min_spec in Hlo as [_ Hlo]. apply max_spec in Hhi as [_ Hhi].
  assert (m.1 (v x) ∈ (fun ind => m.1 (v ind)) <$> individuals self') as Hin
    by by apply (list_elem_of_fmap_2 (fun ind => m.1 (v ind))).
  eapply (proj1 (Forall_forall _ _)) in Hlo; [| exact Hin].
  eapply (proj1 (Forall_forall _ _)) in Hhi; [| exact Hin].
  simpl in Hlo, Hhi.
  rewrite scale_total by lra. eexists. split; [done |].
  replace (m.2.2 - m.2.1 + float_epsilon)
    with ((m.2.2 - m.2.1) + float_epsilon) by lra.
  apply unit_quotient. lra.
Qed.

(** X1.  After [_scale_objectives], every scaled objective maps every
    individual of the population to a value between 0 and 1, both
    included, and never raises: the denominator is at least epsilon. *)
Theorem scaled_objectives_unit_interval (self self' : IBEA)
  (x : Individual) (o : vector → result R) :
  _scale_objectives self = Ok self' →
  x ∈ individuals self' →
  o ∈ scaled_objectives self' →
  ∃ y, o (v x) = Ok y ∧ 0 <= y <= 1.
Proof. apply scaled_objectives_range_aux. Qed.

Lemma scaled_objectives_unit_interval_witness :
  ∃ y, _scale Examples.I.first_coordinate 0 2 (v Examples.I.C) = Ok y
       ∧ 0 <= y <= 1.
Proof.
  apply (scaled_objectives_unit_interval Examples.I.three Examples.I.three_scaled).
  - apply three_scale.
  - right. right. left.
  - left.
Defined.


Lemma filter_all {A} (P : A → Prop) `{∀ x, Decision (P x)} (l : list A) :
  Forall P l → filter P l = l.
Proof.
  induction 1 as [|x l Hx _ IH]; [done |].
  by rewrite filter_cons_True, IH.
Qed.

(** X2.  [_scale_objectives] leaves every individual marked as evaluated,
    with its vector and identity untouched; without an archive it charges
    every individual of the population, evaluated or not. *)
Theorem scale_objectives_charges_all (self self' : IBEA) :
  fitness_archive self = None →
  _scale_objectives self = Ok self' →
  cost self' = (cost self + length (individuals self))%nat
  ∧ Forall (fun ind => known_objectives ind = true) (individuals self')
  ∧ v <$> individuals self' = v <$> individuals self
  ∧ ident <$> individuals self' = ident <$> individuals self.
Proof.
  intros Harch Hs. pose proof (scale_objectives_cost _ _ Hs) as Hcost.
  apply scale_objectives_measured in Hs as (_ & _ & _ & Hi).
  split_and!.
  - rewrite Hcost. f_equal. f_equal. apply filter_all.
    apply Forall_forall. intros ind _. unfold charged, archived.
    rewrite Harch. simpl. apply orb_true_r.
  - rewrite Hi. apply Forall_fmap. by apply Forall_true.
  - rewrite Hi, <- list_fmap_compose. by apply list_fmap_ext.
  - rewrite Hi, <- list_fmap_compose. by apply list_fmap_ext.
Qed.

Lemma scale_objectives_charges_all_witness :
  cost Examples.I.three_scaled = 3%nat
  ∧ Forall (fun ind => known_objectives ind = true)
      (individuals Examples.I.three_scaled)
  ∧ v <$> individuals Examples.I.three_scaled = [[0]; [1]; [2]]
  ∧ ident <$> individuals Examples.I.three_scaled = [0; 1; 2]%nat.
Proof.
  exact (scale_objectives_charges_all Examples.I.three Examples.I.three_scaled
           eq_refl three_scale).
Defined.

(** *** The indicator *)

(** X3.  Whenever the indicator returns on [(x, y)] and on [(y, x)], the
    two values sum to at least 0: one individual cannot beat the other by
    a margin in both directions. *)
Theorem indicator_opposite_sum (self : IBEA) (x y : vector) (a b : R) :
  EPlusIndicator self x y = Ok a →
  EPlusIndicator self y x = Ok b →
  0 <= a + b.
Proof.
  unfold EPlusIndicator.
  intros (ds & Hds & [Hina Ha]%max_spec)%bind_Ok
         (es & Hes & [Hinb Hb]%max_spec)%bind_Ok.
  destruct (scaled_objectives self) as [|o os]; simpl in *.
  { injection Hds as <-. by apply elem_of_nil in Hina. }
  apply bind_Ok in Hds as (d & (p & Hp & (q & Hq & [= <-])%bind_Ok)%bind_Ok
                           & (ds' & _ & [= <-])%bind_Ok).
  apply bind_Ok in Hes as (e & (q' & Hq' & (p' & Hp' & [= <-])%bind_Ok)%bind_Ok
                           & (es' & _ & [= <-])%bind_Ok).
  rewrite Hq in Hq'. injection Hq' as <-. rewrite Hp in Hp'. injection Hp' as <-.
  apply Forall_cons in Ha as [Ha _]. apply Forall_cons in Hb as [Hb _]. lra.
Qed.

Lemma indicator_opposite_sum_witness :
  0 <= (Examples.I.scaled 0 - Examples.I.scaled 2)
       + (Examples.I.scaled 2 - Examples.I.scaled 0).
Proof.
  apply (indicator_opposite_sum Examples.I.three_scaled [0] [2]).
  - by rewrite (line_indicator Examples.I.three_scaled eq_refl).
  - by rewrite (line_indicator Examples.I.three_scaled eq_refl).
Defined.

(** X4.  After [_scale_objectives] with at least one objective, the
    indicator of two individuals of the population returns a value
    between -1 and 1, both included. *)
Theorem indicator_within_unit (self self' : IBEA) (x y : Individual) :
  _scale_objectives self = Ok self' →
  objectives self ≠ [] →
  x ∈ individuals self' → y ∈ individuals self' →
  ∃ i, EPlusIndicator self' (v x) (v y) = Ok i ∧ -1 <= i <= 1.
Proof.
  intros Hs Hne Hx Hy.
  destruct (indicator_total self self' (v x) (v y) Hs Hne) as [i Hi].
  exists i. split; [done |]. unfold EPlusIndicator in Hi.
  apply bind_Ok in Hi as (ds & Hds & [Hin _]%max_spec).
  apply comprehension_Forall2 in Hds.
  assert (∀ os ds,
            (∀ o, o ∈ os → o ∈ scaled_objectives self') →
            Forall2 (fun (o : vector → result R) d =>
                       o (v x) ≫= (fun a => o (v y) ≫= fun b => Ok (a - b))
                       = Ok d) os ds →
            Forall (fun d => -1 <= d <= 1) ds) as Haux.
  { clear ds Hds Hin. intros os ds Hmem Hds.
    induction Hds as [|o d os ds Hd _ IH]; [constructor |].
    constructor; [| apply IH; intros o' ?; apply Hmem; by right].
    destruct (scaled_objectives_range_aux self self' x o Hs Hx)
      as (p & Hp & ?); [apply Hmem; by left |].
    destruct (scaled_objectives_range_aux self self' y o Hs Hy)
      as (q & Hq & ?); [apply Hmem; by left |].
    rewrite Hp, Hq in Hd. simpl in Hd. injection Hd as <-. lra. }
  pose proof (Haux _ _ (fun o H => H) Hds) as Hall.
  by eapply (proj1 (Forall_forall _ _)) in Hall.
Qed.


Lemma indicator_within_unit_witness :
  ∃ i, EPlusIndicator Examples.I.three_scaled (v Examples.I.A) (v Examples.I.C)
       = Ok i ∧ -1 <= i <= 1.
Proof.
  apply (indicator_within_unit Examples.I.three Examples.I.three_scaled).
  - apply three_scale.
  - discriminate.
  - left.
  - right. right. left.
Defined.


(** *** Fitness *)

Lemma exponent_bound self s (M : R) :
  _calculate_fitness self = Ok s →
  0 < M → 1 <= M * k self →
  map_Forall (fun _ i => -1 * (i / denominator s) <= M) (indicators s).
Proof.
  intros Hcalc HM Hk key i Hi. simpl.
  pose proof (calculate_fitness_c _ _ Hcalc) as Hc.
  pose proof (Rabs_max_nonneg _ _ Hc) as Hc0.
  assert (Rabs i <= c s) as Hi'.
  { apply max_spec in Hc as [_ Hub].
    eapply (proj1 (Forall_forall _ _)) in Hub; [exact Hub |].
    apply list_elem_of_fmap. exists i. split; [done |].
    apply list_elem_of_fmap. exists (key, i). split; [done |].
    by apply elem_of_map_to_list. }
  destruct (calculate_fitness_frame _ _ Hcalc) as (_ & _ & Hks & _).
  pose proof float_epsilon_pos as He.
  assert (0 < k self) as Hkpos by nra.
  assert (0 < c s * k s + float_epsilon) as Hd by (rewrite Hks; nra).
  unfold denominator. rewrite Rabs_pos_eq by lra.
  pose proof (Rle_abs (- i)) as Hneg. rewrite Rabs_Ropp in Hneg.
  apply (Rmult_le_reg_r (c s * k s + float_epsilon)); [done |].
  replace (-1 * (i / (c s * k s + float_epsilon)) * (c s * k s + float_epsilon))
    with (- i) by (field; lra).
  rewrite Hks. nra.
Qed.

(** X5.  On a driver whose objectives have been scaled, with at least one
    objective and [kappa] at least 1/700, [_calculate_fitness] returns: no
    lookup fails, no denominator is zero, and every exponent handed to
    [math.exp], there and in the repairs of [_environmental_selection],
    is at most 709, below the point where [math.exp] overflows. *)
Theorem calculate_fitness_returns (self self' : IBEA) :
  _scale_objectives self = Ok self' →
  objectives self ≠ [] →
  1 <= 700 * k self →
  ∃ s, _calculate_fitness self' = Ok s
       ∧ map_Forall (fun _ i => -1 * (i / denominator s) <= 709)
           (indicators s).
Proof.
  intros Hs Hne Hk.
  assert (k self' = k self) as Hk'
    by by apply scale_objectives_Ok in Hs as (? & _ & ->).
  destruct (calculate_fitness_total self') as [s Hcalc].
  - by eapply scale_objectives_nonempty.
  - intros x y. by eapply indicator_total.
  - rewrite Hk'. lra.
  - exists s. split; [done |].
    intros key i Hi.
    pose proof (exponent_bound self' s 700 Hcalc ltac:(lra)
                  ltac:(by rewrite Hk') key i Hi) as Hb.
    simpl in *. lra.
Qed.

Lemma calculate_fitness_returns_witness :
  ∃ s, _calculate_fitness Examples.I.three_scaled = Ok s
       ∧ map_Forall (fun _ i => -1 * (i / denominator s) <= 709)
           (indicators s).
Proof.
  apply (calculate_fitness_returns Examples.I.three Examples.I.three_scaled).
  - apply three_scale.
  - discriminate.
  - simpl. lra.
Defined.

Lemma sum_nonpos l : Forall (fun t => t <= 0) l → sum l <= 0.
Proof.
  induction 1 as [|t l Ht _ IH]; [unfold sum; simpl; lra |].
  rewrite sum_cons. lra.
Qed.

Lemma fitness_of_nonpos s pop x f : fitness_of s pop x = Ok f → f <= 0.
Proof.
  unfold fitness_of. intros (ts & Hts & [= <-])%bind_Ok.
  apply sum_nonpos. apply comprehension_Forall2 in Hts.
  induction Hts as [|x2 t l ts Ht _ IH]; constructor; [| done].
  apply bind_Ok in Ht as (e & He & [= <-]).
  unfold exp_term in He.
  apply bind_Ok in He as (i & _ & (q & _ & [= <-])%bind_Ok).
  pose proof (exp_pos (-1 * q)). lra.
Qed.

(** X6.  When [_calculate_fitness] returns, the normalisation constant [c]
    is non-negative and bounds every cached indicator in absolute value,
    and every cached fitness is at most 0. *)
Theorem calculate_fitness_bounds (self s : IBEA) :
  _calculate_fitness self = Ok s →
  0 <= c s
  ∧ map_Forall (fun _ i => Rabs i <= c s) (indicators s)
  ∧ map_Forall (fun _ f => f <= 0) (fitness s).
Proof.
  intros Hcalc. pose proof (calculate_fitness_c _ _ Hcalc) as Hc.
  split_and!.
  - by eapply Rabs_max_nonneg.
  - intros key i Hi. apply max_spec in Hc as [_ Hub].
    eapply (proj1 (Forall_forall _ _)) in Hub; [exact Hub |].
    apply list_elem_of_fmap. exists i. split; [done |].
    apply list_elem_of_fmap. exists (key, i). split; [done |].
    by apply elem_of_map_to_list.
  - apply calculate_fitness_Ok in Hcalc as (ind & c' & fit & _ & _ & Hfit & ->).
    simpl. intros key f Hf.
    apply (fill_Ok ident
             (fitness_of (set_c c' (set_indicators ind self)) (individuals self)))
      in Hfit as [_ Hk].
    destruct (Hk key) as [(x & f' & _ & _ & Hf' & Hl) | [_ Hl]].
    + rewrite Hl in Hf. injection Hf as <-. by eapply fitness_of_nonpos.
    + by rewrite Hl, lookup_empty in Hf.
Qed.

Lemma calculate_fitness_bounds_witness :
  ∃ s, _calculate_fitness Examples.I.three_scaled = Ok s
       ∧ 0 <= c s
       ∧ map_Forall (fun _ i => Rabs i <= c s) (indicators s)
       ∧ map_Forall (fun _ f => f <= 0) (fitness s).
Proof.
  destruct (line_total Examples.I.three_scaled eq_refl eq_refl) as [s Hs];
    [done |].
  exists s. split; [done |].
  exact (calculate_fitness_bounds Examples.I.three_scaled s Hs).
Defined.

(** *** Environmental selection *)

Lemma environmental_loop_Ok fuel s s' :
  environmental_loop fuel s = Some (Ok s') →
  (length (individuals s') ≤ population_size s')%nat
  ∧ individuals s' ⊆+ individuals s
  ∧ same_caches s s'
  ∧ population_size s' = population_size s.
Proof.
  revert s. induction fuel as [|fuel IH]; intros s; simpl.
  - case_decide; [done |]. intros [= <-]. split_and!; [lia | done..].
  - case_decide; [| intros [= <-]; split_and!; [lia | done..]].
    destruct (remove_worst s) as [s1|e] eqn:Hs1; [| done].
    intros (Hlen & Hsub & (Hi & Hc & Hk) & Hps)%IH.
    destruct (remove_worst_spec _ _ Hs1)
      as (r & f & Hp & _ & _ & Hps1 & (Hi1 & Hc1 & Hk1)).
    split_and!; [done | | | congruence].
    + etrans; [exact Hsub |]. rewrite Hp. by apply submseteq_cons.
    + split_and!; congruence.
Qed.

(** X7.  The loop of [_environmental_selection] ends within
    [len(individuals)] iterations, by returning or by raising. *)
Theorem environmental_selection_terminates (s : IBEA) :
  is_Some (environmental_loop (length (individuals s)) s).
Proof. by apply environmental_loop_fuel. Qed.

(** X8.  When [_environmental_selection] returns, at most
    [population_size] individuals are left, each of them an individual of
    the population it started from (none is altered or added), and the
    cached indicators, [c] and [population_size] are as before. *)
Theorem environmental_selection_only_removes (s s' : IBEA) :
  _environmental_selection s = Ok s' →
  (length (individuals s') ≤ population_size s)%nat
  ∧ individuals s' ⊆+ individuals s
  ∧ same_caches s s'.
Proof.
  unfold _environmental_selection.
  destruct (environmental_loop_fuel (length (individuals s)) s) as [r Hr];
    [done |].
  rewrite Hr. simpl. intros ->.
  apply environmental_loop_Ok in Hr as (Hlen & Hsub & Hsame & Hps).
  rewrite Hps in Hlen. done.
Qed.

Lemma environmental_selection_only_removes_witness :
  ∃ s0 s',
    _calculate_fitness Examples.I.three_scaled = Ok s0
    ∧ _environmental_selection s0 = Ok s'
    ∧ (length (individuals s') ≤ population_size s0)%nat
    ∧ individuals s' ⊆+ individuals s0
    ∧ same_caches s0 s'.
Proof.
  destruct (line_total Examples.I.three_scaled eq_refl eq_refl) as [s0 Hs0];
    [done |].
  destruct (calculate_fitness_frame _ _ Hs0) as (Hi & _).
  destruct (environmental_loop_spec (length (individuals s0)) s0)
    as (removed & s' & Hloop & _); [| by eapply calculate_fitness_cached | lia |].
  { rewrite Hi. apply three_nodup. }
  assert (_environmental_selection s0 = Ok s') as Hsel
    by (unfold _environmental_selection; by rewrite Hloop).
  exists s0, s'. split; [done |]. split; [done |].
  exact (environmental_selection_only_removes s0 s' Hsel).
Defined.

(** *** Construction *)

Lemma wrap_v n pop : v <$> wrap n pop = pop.
Proof. revert n. induction pop as [|x pop IH]; intros n; simpl; by f_equal. Qed.

Lemma wrap_ident n pop : ident <$> wrap n pop = seq n (length pop).
Proof. revert n. induction pop as [|x pop IH]; intros n; simpl; by f_equal. Qed.

Lemma wrap_known n pop :
  Forall (fun ind => known_objectives ind = false) (wrap n pop).
Proof. revert n. induction pop as [|x pop IH]; intros n; simpl; by constructor. Qed.

Lemma wrap_length n pop : length (wrap n pop) = length pop.
Proof. by rewrite <- (length_fmap v), wrap_v. Qed.

(** X9.  Assigning [population] and reading it back gives the assigned
    vectors; the assignment replaces the individuals by new, unevaluated
    and pairwise distinct ones and resets [population_size] to their
    number. *)
Theorem population_setter_getter (pop : list vector) (self : IBEA) :
  population (population_setter pop self) = pop
  ∧ population_size (population_setter pop self) = length pop
  ∧ Forall (fun ind => known_objectives ind = false)
      (individuals (population_setter pop self))
  ∧ NoDup (ident <$> individuals (population_setter pop self)).
Proof.
  unfold population, population_setter. simpl. split_and!.
  - apply wrap_v.
  - apply wrap_length.
  - apply wrap_known.
  - rewrite wrap_ident. apply NoDup_seq.
Qed.

Lemma init_unfold population dims fitnesses kappa mps meta ceta mrate crate
  trim archive :
  ∃ self0,
    individuals self0 = wrap 0 (trim <$> population)
    ∧ objectives self0 = fitnesses
    ∧ cost self0 = 0%nat
    ∧ fitness_archive self0 = None
    ∧ population_size self0 = length population
    ∧ __init__ population dims fitnesses kappa mps meta ceta mrate crate
        trim archive
      = self ← _scale_objectives self0; Ok (set_fitness_archive archive self).
Proof.
  eexists. split_and!; [| | | | | reflexivity]; simpl; try done.
  by rewrite wrap_length, length_fmap.
Qed.

Lemma init_is_Ok population dims fitnesses kappa mps meta ceta mrate crate
  trim archive :
  population ≠ [] ∨ fitnesses = [] →
  is_Ok (__init__ population dims fitnesses kappa mps meta ceta mrate crate
           trim archive).
Proof.
  destruct (init_unfold population dims fitnesses kappa mps meta ceta mrate
              crate trim archive) as (self0 & Hi & Ho & _ & _ & _ & ->).
  intros [Hne | ->].
  - destruct (scale_objectives_total self0) as [s Hs].
    { rewrite Hi. destruct population; [done | discriminate]. }
    rewrite Hs. by eexists.
  - unfold _scale_objectives. rewrite fold_mark. simpl. rewrite Ho. simpl.
    by eexists.
Qed.

(** X10.  The constructor returns exactly when the population is not
    empty or there is no objective; otherwise the first scaling raises. *)
Theorem init_returns_iff (population : list vector) (dims : list (R * R))
  (fitnesses : list (vector → R))
  (kappa mps meta ceta mrate crate : R) (trim : vector → vector)
  (archive : option (vector → option (list R))) :
  is_Ok (__init__ population dims fitnesses kappa mps meta ceta mrate crate
           trim archive)
  ↔ population ≠ [] ∨ fitnesses = [].
Proof.
  split; [| apply init_is_Ok].
  destruct (init_unfold population dims fitnesses kappa mps meta ceta mrate
              crate trim archive) as (self0 & Hi & Ho & _ & _ & _ & ->).
  intros [self Hself]. apply bind_Ok in Hself as (s & Hs & _).
  destruct fitnesses as [|o os]; [by right | left].
  pose proof (scale_objectives_measured _ _ Hs) as (_ & _ & _ & Hinds).
  apply scale_objectives_nonempty in Hs; [| by rewrite Ho].
  intros ->. apply Hs. by rewrite Hinds, Hi.
Qed.

Lemma init_returns_iff_witness :
  is_Ok (__init__ [[0]; [1]] [(0, 4)] [Examples.I.first_coordinate]
           1 1 1 1 1 1 (fun x => x) None).
Proof.
  apply (proj2 (init_returns_iff [[0]; [1]] [(0, 4)]
                  [Examples.I.first_coordinate] 1 1 1 1 1 1 (fun x => x) None)).
  left. discriminate.
Defined.

(** X11.  A constructed driver holds the trimmed vectors in order, has
    charged each of them once, has marked them all evaluated, keeps them
    pairwise distinct, and has [population_size] equal to their number. *)
Theorem init_accounting (population : list vector) (dims : list (R * R))
  (fitnesses : list (vector → R))
  (kappa mps meta ceta mrate crate : R) (trim : vector → vector)
  (archive : option (vector → option (list R))) (self : IBEA) :
  __init__ population dims fitnesses kappa mps meta ceta mrate crate
    trim archive = Ok self →
  IBEA.population self = trim <$> population
  ∧ cost self = length population
  ∧ population_size self = length population
  ∧ Forall (fun ind => known_objectives ind = true) (individuals self)
  ∧ NoDup (ident <$> individuals self)
  ∧ fitness_archive self = archive.
Proof.
  destruct (init_unfold population dims fitnesses kappa mps meta ceta mrate
              crate trim archive) as (self0 & Hi & Ho & Hc & Ha & Hp & ->).
  intros (s & Hs & [= <-])%bind_Ok.
  pose proof (scale_objectives_cost _ _ Hs) as Hcost.
  pose proof (scale_objectives_measured _ _ Hs) as (_ & _ & _ & Hinds).
  assert (population_size s = population_size self0) as Hps.
  { by apply scale_objectives_Ok in Hs as (? & _ & ->). }
  unfold IBEA.population. simpl. split_and!.
  - rewrite Hinds, <- list_fmap_compose, Hi.
    rewrite (list_fmap_ext _ v) by done. apply wrap_v.
  - rewrite Hcost, Hc. simpl. rewrite filter_all.
    + by rewrite Hi, wrap_length, length_fmap.
    + rewrite Hi. eapply Forall_impl; [apply wrap_known |]. simpl.
      intros ind Hk. unfold charged. by rewrite Hk.
  - by rewrite Hps.
  - rewrite Hinds. apply Forall_fmap. by apply Forall_true.
  - rewrite Hinds, <- list_fmap_compose, (list_fmap_ext _ ident) by done.
    rewrite Hi, wrap_ident. apply NoDup_seq.
  - done.
Qed.

Lemma init_accounting_witness :
  ∃ self,
    __init__ [[0]; [1]] [(0, 4)] [Examples.I.first_coordinate]
      1 1 1 1 1 1 (fun x => x) None = Ok self
    ∧ IBEA.population self = [[0]; [1]]
    ∧ cost self = 2%nat
    ∧ population_size self = 2%nat
    ∧ Forall (fun ind => known_objectives ind = true) (individuals self)
    ∧ NoDup (ident <$> individuals self)
    ∧ fitness_archive self = None.
Proof.
  destruct (init_is_Ok [[0]; [1]] [(0, 4)] [Examples.I.first_coordinate]
              1 1 1 1 1 1 (fun x => x) None) as [self Hself];
    [left; discriminate |].
  exists self. split; [exact Hself |].
  exact (init_accounting [[0]; [1]] [(0, 4)] [Examples.I.first_coordinate]
           1 1 1 1 1 1 (fun x => x) None self Hself).
Defined.


(** *** Mating selection and the generation step *)

Lemma choice_elem `{Random G} {A} (l : list A) (g g' : G) x :
  choice l g = Ok (x, g') → x ∈ l.
Proof.
  unfold choice. destruct l as [|y l]; [done |].
  destruct (randbelow (length (y :: l)) g) as [i g1].
  destruct ((y :: l) !! i) as [z|] eqn:Hz; [| done].
  intros [= <- <-]. by eapply list_elem_of_lookup_2.
Qed.

Lemma inverted_tournament_elem `{Random G} p s m :
  inverted_tournament p s m → m ∈ individuals s.
Proof.
  intros (g0 & g1 & g2 & g3 & x1 & x2 & r & f1 & f2 & fm
          & H1%choice_elem & H2%choice_elem & _ & _ & _ & [-> | ->] & _); done.
Qed.

(** X12.  Mating selection only picks individuals of the current
    population, [2 * mating_size] of them, and changes nothing else of the
    population or of the cost. *)
Theorem mating_selection_members `{Random G} (p : R) (s s' : IBEA) (g g' : G) :
  _mating_selection p s g = Ok (s', g') →
  Forall (fun m => m ∈ individuals s) (mating_individuals s')
  ∧ length (mating_individuals s') = Z.to_nat (2 * mating_size s)
  ∧ individuals s' = individuals s
  ∧ cost s' = cost s.
Proof.
  intros (chosen & -> & Hlen & Hall)%mating_selection_spec. simpl.
  split_and!; [| done..].
  eapply Forall_impl; [exact Hall |]. apply inverted_tournament_elem.
Qed.

Lemma breeding_mating s0 :
  _calculate_fitness Examples.I.breeding = Ok s0 →
  @_mating_selection nat Examples.counter (9 / 10) s0 0%nat
  = Ok (set_mating_individuals
          [mkIndividual 0 [1] true; mkIndividual 0 [1] true] s0, 6%nat).
Proof.
  intros Hs0.
  destruct (calculate_fitness_cached _ _ Hs0 (mkIndividual 0 [1] true))
    as (f & Hf & _).
  { destruct (calculate_fitness_frame _ _ Hs0) as (-> & _). by left. }
  pose proof Hs0 as Hs0'.
  apply calculate_fitness_Ok in Hs0' as (ind & c' & fit & _ & _ & _ & ->).
  simpl in Hf. unfold _mating_selection.
  change (seq 0 (Z.to_nat (2 * mating_size _))) with [0%nat; 1%nat].
  cbn [comprehension_rnd].
  repeat (rewrite (tournament_single _ _ (mkIndividual 0 [1] true))
            by (try done; simpl; by eexists);
          cbn [mbind result_bind]).
  reflexivity.
Qed.

Lemma mating_selection_members_witness :
  ∃ s s' g',
    _calculate_fitness Examples.I.breeding = Ok s
    ∧ @_mating_selection nat Examples.counter (9 / 10) s 0%nat = Ok (s', g')
    ∧ Forall (fun m => m ∈ individuals s) (mating_individuals s')
    ∧ length (mating_individuals s') = Z.to_nat (2 * mating_size s)
    ∧ individuals s' = individuals s
    ∧ cost s' = cost s.
Proof.
  destruct (calculate_fitness_total Examples.I.breeding) as [s Hs];
    [done | apply breeding_indicator | simpl; lra |].
  pose proof (breeding_mating s Hs) as Hm.
  eexists s, _, _. split; [done |]. split; [exact Hm |].
  exact (@mating_selection_members nat Examples.counter _ _ _ _ _ Hm).
Defined.

(** *** [finish] *)

(** X13.  When [finish] returns, it returns the vectors of the surviving
    individuals: at most [population_size] of them, all taken from the
    vectors the driver held. *)
Theorem finish_survivors (self s' : IBEA) (vs : list vector) :
  finish self = Ok (vs, s') →
  vs = v <$> individuals s'
  ∧ (length vs ≤ population_size self)%nat
  ∧ vs ⊆+ v <$> individuals self.
Proof.
  unfold finish.
  intros (s1 & Hs1 & (s2 & Hs2 & (s3 & Hs3 & [= <- <-])%bind_Ok)%bind_Ok)%bind_Ok.
  destruct (calculate_fitness_frame _ _ Hs2) as (Hi2 & Hp2 & _).
  pose proof (scale_objectives_measured _ _ Hs1) as (_ & _ & _ & Hi1).
  assert (population_size s1 = population_size self) as Hp1.
  { by apply scale_objectives_Ok in Hs1 as (? & _ & ->). }
  unfold _environmental_selection in Hs3.
  destruct (environmental_loop_fuel (length (individuals s2)) s2) as [r Hr];
    [done |].
  rewrite Hr in Hs3. simpl in Hs3. subst r.
  apply environmental_loop_Ok in Hr as (Hlen & Hsub & _ & Hps).
  split_and!; [done | |].
  - rewrite length_fmap. lia.
  - assert (v <$> individuals self = v <$> individuals s2) as ->.
    { rewrite Hi2, Hi1, <- list_fmap_compose. by apply list_fmap_ext. }
    by apply fmap_submseteq.
Qed.

Lemma finish_survivors_witness :
  ∃ vs s',
    finish Examples.I.three = Ok (vs, s')
    ∧ vs = v <$> individuals s'
    ∧ (length vs ≤ 2)%nat
    ∧ vs ⊆+ [[0]; [1]; [2]].
Proof.
  destruct (line_total Examples.I.three_scaled eq_refl eq_refl) as [s0 Hs0];
    [done |].
  destruct (calculate_fitness_frame _ _ Hs0) as (Hi & _).
  destruct (environmental_loop_spec (length (individuals s0)) s0)
    as (removed & s' & Hloop & _); [| by eapply calculate_fitness_cached | lia |].
  { rewrite Hi. apply three_nodup. }
  assert (finish Examples.I.three = Ok (v <$> individuals s', s')) as Hfin.
  { unfold finish. rewrite three_scale. simpl. rewrite Hs0. simpl.
    unfold _environmental_selection. by rewrite Hloop. }
  eexists _, s'. split; [exact Hfin |].
  exact (finish_survivors Examples.I.three s' _ Hfin).
Defined.


(** *** Identities across a generation *)

Lemma environmental_loop_min fuel s s' :
  environmental_loop fuel s = Some (Ok s') →
  length (individuals s')
  = Nat.min (length (individuals s)) (population_size s)
  ∧ next_ident s' = next_ident s
  ∧ mating_size s' = mating_size s
  ∧ generation_counter s' = generation_counter s.
Proof.
  revert s. induction fuel as [|fuel IH]; intros s; simpl.
  - case_decide; [done |]. intros [= <-]. split_and!; [lia | done..].
  - case_decide; [| intros [= <-]; split_and!; [lia | done..]].
    destruct (remove_worst s) as [s1|e] eqn:Hs1; [| done].
    intros (Hlen & Hn & Hm & Hg)%IH.
    pose proof (remove_worst_length _ _ Hs1) as Hl.
    apply remove_worst_Ok in Hs1 as (? & ? & ? & ? & _ & _ & _ & ->).
    simpl in *. split_and!; [lia | done..].
Qed.

Lemma comprehension_rnd_length {A B G} (f : A → G → result (B * G)) l g ys g' :
  comprehension_rnd f l g = Ok (ys, g') → length ys = length l.
Proof. by intros [? _]%comprehension_rnd_Ok. Qed.

Lemma mutation_loop_spec `{Operators G} offspring self (g : G) :
  ident <$> (mutation_loop offspring self g).1.1
  = seq (next_ident self) (length offspring)
  ∧ (mutation_loop offspring self g).1.2
    = (next_ident self + length offspring)%nat.
Proof.
  revert self g. induction offspring as [|x rest IH]; intros self g; simpl.
  - split; [done | lia].
  - destruct (mutate x (dims self) (mutation_rate self) (mutation_eta self) g)
      as [x' g1].
    destruct (IH (set_next_ident (S (next_ident self)) self) g1) as [IH1 IH2].
    destruct (mutation_loop rest (set_next_ident (S (next_ident self)) self) g1)
      as [[inds n] g2].
    simpl in *. split; [by f_equal | lia].
Qed.

Lemma submseteq_NoDup {A} (l k : list A) : l ⊆+ k → NoDup k → NoDup l.
Proof.
  induction 1 as [|x l k Hsub IH|x y l|x l k Hsub IH|l k m _ IH1 _ IH2].
  - done.
  - intros [Hx Hk]%NoDup_cons. apply NoDup_cons. split; [| by apply IH].
    intros Hin. apply Hx. by eapply elem_of_submseteq.
  - intros Hnd. by rewrite Permutation_swap.
  - intros [_ Hk]%NoDup_cons. by apply IH.
  - auto.
Qed.

Lemma submseteq_Forall {A} (P : A → Prop) (l k : list A) :
  l ⊆+ k → Forall P k → Forall P l.
Proof.
  intros Hsub Hall. apply Forall_forall. intros x Hx.
  eapply (proj1 (Forall_forall _ _)) in Hall; [exact Hall |].
  by eapply elem_of_submseteq.
Qed.

Lemma next_step_spec `{Random G, Operators G}
  (self self' : IBEA) (g g' : G) :
  well_numbered self →
  _next_step self g = Ok (self', g') →
  well_numbered self'
  ∧ length (individuals self')
    = (Nat.min (length (individuals self)) (population_size self)
       + Z.to_nat (mating_size self))%nat
  ∧ population_size self' = population_size self
  ∧ generation_counter self' = S (generation_counter self)
  ∧ mating_size self' = mating_size self.
Proof.
  intros [Hnd Hlt]. unfold _next_step.
  intros (s1 & Hs1 & (s2 & Hs2 & ([s3 g3] & Hs3
          & ([offspring g4] & Hcross & Hrest)%bind_Ok)%bind_Ok)%bind_Ok)%bind_Ok.
  pose proof Hs1 as Hs1'.
  apply calculate_fitness_Ok in Hs1' as (ind & c' & fit & _ & _ & _ & Hs1').
  unfold _environmental_selection in Hs2.
  destruct (environmental_loop_fuel (length (individuals s1)) s1) as [r Hr];
    [done |].
  rewrite Hr in Hs2. simpl in Hs2. subst r.
  pose proof (environmental_loop_min _ _ _ Hr) as (Hlen2 & Hn2 & Hm2 & Hg2).
  apply environmental_loop_Ok in Hr as (_ & Hsub & _ & Hps2).
  apply mating_selection_spec in Hs3 as (chosen & -> & Hchosen & _).
  unfold _crossover in Hcross. simpl in Hcross.
  apply comprehension_rnd_length in Hcross. rewrite length_seq in Hcross.
  unfold _mutation in Hrest.
  pose proof (mutation_loop_spec offspring (set_mating_individuals chosen s2) g4)
    as [Hid Hnext].
  destruct (mutation_loop offspring (set_mating_individuals chosen s2) g4)
    as [[inds n] g5].
  simpl in Hid, Hnext, Hrest.
  apply bind_Ok in Hrest as (s5 & Hs5 & [= <- <-]).
  pose proof (scale_objectives_measured _ _ Hs5) as (_ & _ & _ & Hi5).
  apply scale_objectives_Ok in Hs5 as (? & _ & Hs5).
  simpl in Hi5.
  assert (ident <$> individuals s5
          = (ident <$> individuals s2) ++ seq (next_ident s2) (length offspring))
    as Hids.
  { rewrite Hi5, <- list_fmap_compose, fmap_app, <- !list_fmap_compose.
    rewrite <- Hid. f_equal; by apply list_fmap_ext. }
  assert (next_ident s5 = (next_ident s2 + length offspring)%nat) as Hn5
    by (rewrite Hs5; simpl; lia).
  assert (individuals s1 = individuals self ∧ next_ident s1 = next_ident self
          ∧ population_size s1 = population_size self
          ∧ mating_size s1 = mating_size self
          ∧ generation_counter s1 = generation_counter self)
    as (Hi1 & Hn1 & Hp1 & Hm1 & Hg1) by by rewrite Hs1'.
  assert (Forall (fun i => (i < next_ident s2)%nat) (ident <$> individuals s2))
    as Hlt2.
  { apply Forall_fmap. rewrite Hn2, Hn1.
    eapply submseteq_Forall; [exact Hsub |]. by rewrite Hi1. }
  split_and!.
  - split.
    + simpl. rewrite Hids. apply NoDup_app. split_and!.
      * eapply (submseteq_NoDup _ (ident <$> individuals s1)).
        -- by apply fmap_submseteq.
        -- by rewrite Hi1.
      * intros i Hi Hseq%elem_of_seq.
        eapply (proj1 (Forall_forall _ _)) in Hlt2; [| exact Hi]. lia.
      * apply NoDup_seq.
    + simpl.
      apply (proj1 (Forall_fmap ident (fun i => (i < next_ident s5)%nat) _)).
      rewrite Hids, Hn5.
      apply Forall_app. split.
      * eapply Forall_impl; [exact Hlt2 |]. simpl. lia.
      * apply Forall_forall. intros i Hseq%elem_of_seq. lia.
  - simpl. rewrite <- (length_fmap ident), Hids, length_app, length_fmap.
    rewrite length_seq, Hlen2, Hi1, Hp1, Hcross. simpl. by rewrite Hm2, Hm1.
  - simpl. rewrite Hs5. simpl. by rewrite Hps2.
  - simpl. rewrite Hs5. simpl. by rewrite Hg2, Hg1.
  - simpl. rewrite Hs5. simpl. by rewrite Hm2, Hm1.
Qed.

(** X14.  A generation step keeps the individuals pairwise distinct and
    numbered below the allocation counter.  It leaves the survivors of the
    selection followed by [mating_size] new individuals: the population
    grows to [min(len, population_size) + mating_size], and is cut back
    only by the next step. *)
Theorem next_step_population `{Random G, Operators G}
  (self self' : IBEA) (g g' : G) :
  well_numbered self →
  _next_step self g = Ok (self', g') →
  well_numbered self'
  ∧ length (individuals self')
    = (Nat.min (length (individuals self)) (population_size self)
       + Z.to_nat (mating_size self))%nat
  ∧ population_size self' = population_size self
  ∧ generation_counter self' = S (generation_counter self).
Proof.
  intros Hwn Hstep.
  destruct (next_step_spec self self' g g' Hwn Hstep)
    as (Hwn' & Hlen & Hsize & Hgen & _).
  done.
Qed.


Lemma next_step_population_witness :
  ∃ self' g',
    @_next_step nat Examples.counter Examples.I.clone Examples.I.breeding 0%nat
    = Ok (self', g')
    ∧ well_numbered self'
    ∧ length (individuals self') = 2%nat
    ∧ population_size self' = 1%nat
    ∧ generation_counter self' = 1%nat.
Proof.
  destruct breeding_step as (self' & g' & Hstep).
  exists self', g'. split; [exact Hstep |].
  apply (@next_step_population nat Examples.counter Examples.I.clone
           Examples.I.breeding self' 0%nat g'); [| exact Hstep].
  split; [apply (bool_decide_unpack _); by vm_compute |].
  repeat constructor.
Defined.

(** X23.  [step(steps)] runs that many generations: the generation counter
    advances by [steps], [population_size] and [mating_size] stay as they
    were, the individuals stay pairwise distinct, and after at least one
    generation the population holds at most [population_size + mating_size]
    individuals. *)
Theorem step_population `{Random G, Operators G} (steps : nat)
  (self self' : IBEA) (g g' : G) :
  well_numbered self →
  step steps self g = Ok (self', g') →
  well_numbered self'
  ∧ generation_counter self' = (generation_counter self + steps)%nat
  ∧ population_size self' = population_size self
  ∧ mating_size self' = mating_size self
  ∧ (steps ≠ 0%nat →
     (length (individuals self')
      ≤ population_size self + Z.to_nat (mating_size self))%nat).
Proof.
  revert self g. induction steps as [|n IH]; intros self g Hwn; simpl.
  - intros [= <- <-]. split_and!; [done | lia | done | done | done].
  - intros ([s1 g1] & Hs1 & Hrest)%bind_Ok. simpl in Hrest.
    destruct (next_step_spec self s1 g g1 Hwn Hs1)
      as (Hwn1 & Hlen1 & Hsize1 & Hgen1 & Hmate1).
    destruct (IH s1 g1 Hwn1 Hrest) as (Hwn' & Hgen & Hsize & Hmate & Hlen).
    split_and!; [done | lia | congruence | congruence |].
    intros _. destruct n as [|n].
    + simpl in Hrest. injection Hrest as <- <-. lia.
    + rewrite <- Hsize1, <- Hmate1. apply Hlen. lia.
Qed.

Lemma step_population_witness :
  ∃ self' g',
    @step nat Examples.counter Examples.I.clone 1 Examples.I.breeding 0%nat
    = Ok (self', g')
    ∧ well_numbered self'
    ∧ generation_counter self' = 1%nat
    ∧ population_size self' = 1%nat
    ∧ mating_size self' = 1%Z
    ∧ (1%nat ≠ 0%nat → (length (individuals self') ≤ 2)%nat).
Proof.
  destruct breeding_step as (self' & g' & Hstep).
  assert (@step nat Examples.counter Examples.I.clone 1 Examples.I.breeding
            0%nat = Ok (self', g')) as Hrun.
  { simpl. by rewrite Hstep. }
  exists self', g'. split; [exact Hrun |].
  apply (@step_population nat Examples.counter Examples.I.clone 1
           Examples.I.breeding self' 0%nat g'); [| exact Hrun].
  split; [apply (bool_decide_unpack _); by vm_compute |].
  repeat constructor.
Defined.

End IBEAMore.

(** ** More facts about SMS-EMOA *)

Module SMSEMOAMore.
Import SMSEMOA PyFacts SMSEMOAFacts.

(** *** Construction and [finish] *)

Lemma wrap_value n pop : value <$> wrap n pop = pop.
Proof. revert n. induction pop as [|x pop IH]; intros n; simpl; by f_equal. Qed.

(** X15.  A driver that has just been constructed gives back, through
    [finish], the vectors it was constructed from, in order. *)
Theorem finish_after_init (population : list vector)
  (fitnesses : list (vector → Q)) (dims : list (Q * Q))
  (epoch_length_multiplier : Q) :
  (finish (__init__ population fitnesses dims epoch_length_multiplier)).1
  = Ok population.
Proof.
  unfold finish, SMSEMOA.population, __init__, population_setter. simpl.
  f_equal. apply wrap_value.
Qed.

(** *** The peeling loop *)

(** X16.  The [while True] loop of [nd_sort] breaks: within one iteration
    more than there are dominance counters, it reaches an empty front. *)
Theorem nd_sort_terminates (pop : list Individual) :
  is_Some (peel (S (size (how_many_dominates (nd_sort_start pop)))) 1
             (nd_sort_start pop)).
Proof. rewrite nd_sort_fuel. by eexists. Qed.

(** *** Reduction *)

Lemma min_from_elem m l r : min_from m l = Ok r → r ∈ m :: l.
Proof.
  revert m. induction l as [|x l IH]; intros m; simpl.
  - intros [= <-]. by left.
  - intros (b & _ & Hr%IH)%bind_Ok.
    apply elem_of_cons in Hr as [-> | Hr]; [| by do 2 right].
    destruct b; [right; left | left].
Qed.

Lemma min_tuple_elem l r : min_tuple l = Ok r → r ∈ l.
Proof. destruct l as [|x l]; [done |]. apply min_from_elem. Qed.

Lemma imap_fst_elem {A B} (f : nat → A → B) (l : list A) (p : A * B) :
  p ∈ imap (fun i x => (x, f i x)) l → p.1 ∈ l.
Proof.
  revert f. induction l as [|x l IH]; intros f; simpl; [by intros ?%elem_of_nil |].
  intros [-> | Hp]%elem_of_cons; [by left |].
  right. by apply (IH (f ∘ S)).
Qed.

(** X17.  [reduce_population] raises [ValueError] exactly when the front
    numbered [len(pop)] is empty; when it returns, it returns a member of
    that front. *)
Theorem reduce_population_outcome `{HyperVolume} (self : SMSEMOA)
  (pop : list Individual) :
  (reduce_population self pop = Raise ValueError
   ↔ get_front (nd_sort pop) (length pop) = [])
  ∧ ∀ r, reduce_population self pop = Ok r →
         r ∈ get_front (nd_sort pop) (length pop).
Proof.
  unfold reduce_population.
  set (front := get_front (nd_sort pop) (length pop)).
  set (candidates := imap _ front).
  split.
  - split.
    + intros Hr. destruct front as [|a front'] eqn:Hf; [done |].
      exfalso. subst candidates. simpl in Hr.
      destruct front' as [|b front'']; simpl in Hr; [done |].
      unfold tuple_lt in Hr at 1. simpl in Hr.
      case_bool_decide; simpl in Hr; [| done].
      clear -Hr. revert Hr.
      match goal with
      | |- min_from ?m ?l ≫= _ = _ → _ => generalize m; generalize l
      end.
      intros l. induction l as [|x l IH]; intros m; simpl; [done |].
      unfold tuple_lt at 1. case_bool_decide; simpl; [apply IH | done].
    + intros Hnil. subst candidates. by rewrite Hnil.
  - intros r (mc & Hmc%min_tuple_elem & [= <-])%bind_Ok.
    by apply imap_fst_elem in Hmc.
Qed.

Lemma reduce_population_outcome_witness :
  let a := mkIndividual 0 [1; 1]%Q [1; 1]%Q in
  let b := mkIndividual 1 [2; 2]%Q [2; 2]%Q in
  b ∈ get_front (nd_sort [a; b]) (length [a; b]).
Proof.
  intros a b.
  apply (proj2 (@reduce_population_outcome Examples.S.counting
                  Examples.S.chain [a; b]) b).
  by vm_compute.
Defined.

(** *** The steady-state loop *)

Section steps.
Context `{Random G, Driver G, HyperVolume}.

Lemma insertion_individual (self : SMSEMOA) (g : G) x :
  __population self = PopIndividual x → insertion self g = Raise TypeError.
Proof. intros Hp. unfold insertion. by rewrite Hp. Qed.

Lemma insertion_Ok (self self' : SMSEMOA) (g g' : G) (n : nat) :
  insertion self g = Ok (self', n, g') →
  n = 1%nat ∧ epoch_length self' = epoch_length self
  ∧ ∃ x, __population self' = PopIndividual x.
Proof.
  unfold insertion.
  intros ([[new s1] g1] & Hgen & Hrest)%bind_Ok. simpl in Hrest.
  apply bind_Ok in Hrest as (pop & _ & (r & _ & [= <- <- _])%bind_Ok).
  split; [done |]. split; [| by eexists].
  simpl. unfold generate in Hgen.
  destruct (__population self) as [l|]; [| done].
  case_decide; [done |].
  destruct (sample2 (length l) g) as [[i j] g2].
  destruct (l !! i) as [a|]; [| done]. destruct (l !! j) as [b|]; [| done].
  destruct (crossover (value a) (value b) g2) as [child g3].
  destruct (mutate child g3) as [child' g4].
  by injection Hgen as _ <- _.
Qed.

Lemma epoch_Ok n budget (self self' : SMSEMOA) cost cost' (g g' : G) b :
  epoch n budget self cost g = Ok (self', cost', g', b) →
  (n = 0%nat ∧ self' = self ∧ cost' = cost ∧ b = false)
  ∨ (n ≠ 0%nat ∧ cost' = S cost
     ∧ epoch_length self' = epoch_length self
     ∧ (∃ x, __population self' = PopIndividual x)
     ∧ (if b then budget ≠ None else n = 1%nat)).
Proof.
  destruct n as [|n]; simpl.
  - intros [= <- <- _ <-]. by left.
  - intros ([[s1 k] g1] & Hins & Hrest)%bind_Ok. right.
    apply insertion_Ok in Hins as (-> & Hlen & x & Hx).
    destruct (exceeded budget (cost + 1)) eqn:Hex.
    + injection Hrest as <- <- _ <-. split_and!; [done | lia | done | by eexists |].
      by destruct budget.
    + destruct n as [|n]; simpl in Hrest.
      * injection Hrest as <- <- _ <-. split_and!; [done | lia | done | by eexists | done].
      * by rewrite (insertion_individual _ _ x) in Hrest.
Qed.

Lemma epochs_Ok condI budget (self self' : SMSEMOA) cost cost' (g g' : G) :
  epochs condI budget self cost g = Ok (self', cost', g') →
  (self' = self ∧ cost' = cost
   ∧ (Z.to_nat (epoch_length self) * condI = 0)%nat)
  ∨ (cost' = S cost
     ∧ (∃ x, __population self' = PopIndividual x)
     ∧ (budget = None → (Z.to_nat (epoch_length self) * condI = 1)%nat)).
Proof.
  revert self cost g. induction condI as [|condI IH]; intros self cost g; simpl.
  - intros [= <- <- _]. left. split_and!; [done | done | lia].
  - intros ([[[s1 c1] g1] b] & Hep & Hrest)%bind_Ok.
    apply epoch_Ok in Hep
      as [(Hz & -> & -> & ->) | (Hnz & -> & Hlen & [x Hx] & Hb)].
    + apply IH in Hrest as [(-> & -> & Hprod) | (-> & Hx & Hprod)].
      * left. split_and!; [done | done | lia].
      * right. split_and!; [done | done |]. intros Hb. specialize (Hprod Hb). lia.
    + right. destruct b.
      * injection Hrest as <- <- _. split_and!; [done | by eexists | done].
      * clear IH. destruct condI as [|condI]; simpl in Hrest.
        -- injection Hrest as <- <- _.
           split_and!; [done | by eexists |]. intros _. lia.
        -- rewrite Hlen, Hb in Hrest. simpl in Hrest.
           by rewrite (insertion_individual _ _ x) in Hrest.
Qed.

(** X18.  [steps] never completes two insertions.  When it returns, it has
    evaluated the population and at most one offspring; if it inserted one,
    the population attribute holds a bare individual; and without a budget
    it returns only when [epoch_length] times the number of epochs is at
    most 1. *)
Theorem steps_at_most_one_insertion condI budget (self self' : SMSEMOA)
  (cost : nat) (g g' : G) :
  steps condI budget self g = Ok (self', cost, g') →
  ∃ pop, __population self = PopList pop
    ∧ ((cost = length pop ∧ ∃ pop', __population self' = PopList pop')
       ∨ (cost = S (length pop) ∧ ∃ x, __population self' = PopIndividual x))
    ∧ (budget = None → (Z.to_nat (epoch_length self) * condI ≤ 1)%nat).
Proof.
  unfold steps. intros (pop & Hpop & Hrest)%bind_Ok.
  destruct (__population self) as [l|] eqn:Hl; [| done].
  injection Hpop as ->. exists pop. split; [done |].
  simpl in Hrest.
  apply epochs_Ok in Hrest as [(-> & -> & Hprod) | (-> & Hx & Hprod)].
  - split; [left; split; [done | by eexists] |]. intros _. simpl in Hprod. lia.
  - split; [right; split; [done | done] |].
    intros Hb. specialize (Hprod Hb). simpl in Hprod. lia.
Qed.

End steps.

Lemma steps_at_most_one_insertion_witness :
  ∃ pop, __population Examples.S.chain = PopList pop
    ∧ ((3%nat = length pop
        ∧ ∃ pop', __population
                    (mkSMSEMOA (PopIndividual (mkIndividual 2 [3; 3]%Q [3; 3]%Q))
                       [Examples.S.f1; Examples.S.f2] [(0, 4); (0, 4)]%Q 1 3)
                  = PopList pop')
       ∨ (3%nat = S (length pop)
          ∧ ∃ x, __population
                   (mkSMSEMOA (PopIndividual (mkIndividual 2 [3; 3]%Q [3; 3]%Q))
                      [Examples.S.f1; Examples.S.f2] [(0, 4); (0, 4)]%Q 1 3)
                 = PopIndividual x))
    ∧ (@None nat = None
       → (Z.to_nat (epoch_length Examples.S.chain) * 1 ≤ 1)%nat).
Proof.
  apply (@steps_at_most_one_insertion nat Examples.counter Examples.S.worse
           Examples.S.counting 1 None Examples.S.chain _ 3 0%nat 1%nat).
  by vm_compute.
Defined.

(** *** The first front *)

Lemma dominates_asymmetric a b : dominates a b = true → dominates b a = false.
Proof.
  unfold dominates. intros [_ Hex]%andb_prop.
  apply andb_false_intro1.
  revert b Hex. induction a as [|x a IH]; intros [|y b]; simpl; try done.
  intros [Hxy | Hex]%orb_prop.
  - apply negb_true_iff in Hxy. by rewrite Hxy.
  - rewrite (IH _ Hex). apply andb_false_r.
Qed.

(** [y] counts against [x] in the first loop. *)
#[local] Abbreviation counts x y :=
  (negb (dominates (objectives x) (objectives y))
   && dominates (objectives y) (objectives x)).

Lemma compare_how_many x y s :
  get_how_many (compare x s y) x
  = (get_how_many s x + (if counts x y then 1 else 0))%Z
  ∧ (∀ k, k ≠ ident x →
       how_many_dominates (compare x s y) !! k = how_many_dominates s !! k).
Proof.
  unfold compare.
  destruct (dominates (objectives x) (objectives y)); simpl.
  - split; [unfold get_how_many; simpl; lia | done].
  - destruct (dominates (objectives y) (objectives x)); simpl.
    + split; [apply get_how_many_bump |].
      intros k Hk. by rewrite lookup_insert_ne.
    + split; [lia | done].
Qed.

Lemma fold_compare_how_many x l s :
  get_how_many (fold_left (compare x) l s) x
  = (get_how_many s x
     + Z.of_nat (length (filter (fun y => counts x y = true) l)))%Z
  ∧ (∀ k, k ≠ ident x →
       how_many_dominates (fold_left (compare x) l s) !! k
       = how_many_dominates s !! k).
Proof.
  revert s. induction l as [|y l IH]; intros s; simpl.
  - split; [lia | done].
  - destruct (IH (compare x s y)) as [IH1 IH2].
    destruct (compare_how_many x y s) as [H1 H2].
    split.
    + rewrite IH1, H1, filter_cons.
      case_decide as Hc; simpl in Hc.
      * rewrite Hc. simpl length. lia.
      * apply not_true_is_false in Hc. rewrite Hc. lia.
    + intros k Hk. by rewrite IH2, H2.
Qed.

Lemma counts_none x pop :
  length (filter (fun y => counts x y = true) pop) = 0%nat
  ↔ Forall (fun y => dominates (objectives y) (objectives x) = false) pop.
Proof.
  induction pop as [|y pop IH]; simpl; [by split; [constructor |] |].
  rewrite filter_cons, Forall_cons.
  destruct (dominates (objectives y) (objectives x)) eqn:Hyx.
  - case_decide as Hc; simpl in Hc.
    + simpl. split; [done | by intros [? _]].
    + by rewrite (dominates_asymmetric _ _ Hyx) in Hc.
  - case_decide as Hc; simpl in Hc.
    + by rewrite andb_false_r in Hc.
    + rewrite IH. split; [done | by intros [_ ?]].
Qed.

Lemma classify_front pop l s :
  NoDup (ident <$> l) →
  (∀ x, x ∈ l → how_many_dominates s !! ident x = None) →
  get_front (fold_left (classify pop) l s) 1
  = get_front s 1
    ++ filter (fun x => Forall (fun y => dominates (objectives y) (objectives x)
                                         = false) pop) l.
Proof.
  revert s. induction l as [|x l IH]; intros s Hnd Hfresh; simpl.
  - by rewrite app_nil_r.
  - rewrite fmap_cons in Hnd. apply NoDup_cons in Hnd as [Hx Hnd].
    destruct (fold_compare_how_many x pop s) as [Hcount Hframe].
    assert (get_how_many s x = 0%Z) as Hzero.
    { unfold get_how_many. rewrite Hfresh; [done | by left]. }
    rewrite Hzero in Hcount. simpl in Hcount.
    rewrite IH; [| done |].
    + rewrite filter_cons. unfold classify.
      case_bool_decide as Hz.
      * case_decide as Hd.
        2: { exfalso. apply Hd, counts_none. rewrite Hcount in Hz. lia. }
        unfold get_front at 1, append_front. simpl.
        rewrite lookup_insert_eq. simpl. unfold get_front.
        rewrite fold_compare_front. by rewrite <- app_assoc.
      * case_decide as Hd.
        1: { apply counts_none in Hd. by rewrite Hcount, Hd in Hz. }
        unfold get_front. by rewrite fold_compare_front.
    + intros z Hz.
      assert (ident z ≠ ident x) as Hne.
      { intros Heq. apply Hx. rewrite <- Heq. by apply list_elem_of_fmap_2. }
      unfold classify. case_bool_decide; simpl; rewrite Hframe by done;
        apply Hfresh; by right.
Qed.

Lemma peel_frame fuel n s s' m :
  peel fuel n s = Some s' → (m ≤ n)%nat → get_front s' m = get_front s m.
Proof.
  revert n s. induction fuel as [|fuel IH]; intros n s; simpl.
  - case_bool_decide; [| done]. by intros [= <-].
  - case_bool_decide; [by intros [= <-] |].
    intros Hp Hm. rewrite (IH _ _ Hp) by lia.
    destruct (fold_peel_one_pending n (get_front s n) s) as [_ Hframe].
    apply Hframe. lia.
Qed.

(** X19.  On individuals that are distinct objects, the first front that
    [nd_sort] returns holds exactly the individuals that no individual of
    the population dominates, in population order. *)
Theorem nd_sort_first_front (pop : list Individual) :
  NoDup (ident <$> pop) →
  get_front (nd_sort pop) 1
  = filter (fun x => Forall (fun y => dominates (objectives y) (objectives x)
                                       = false) pop) pop.
Proof.
  intros Hnd.
  rewrite (peel_frame _ _ _ _ 1 (nd_sort_fuel pop)) by lia.
  unfold nd_sort_start. rewrite classify_front; [| done |].
  - unfold get_front. simpl. by rewrite lookup_empty.
  - intros x _. simpl. apply lookup_empty.
Qed.

Lemma nd_sort_first_front_witness :
  let a := mkIndividual 0 [1; 1]%Q [1; 1]%Q in
  let b := mkIndividual 1 [2; 2]%Q [2; 2]%Q in
  let c := mkIndividual 2 [0; 3]%Q [0; 3]%Q in
  get_front (nd_sort [a; b; c]) 1
  = filter (fun x => Forall (fun y => dominates (objectives y) (objectives x)
                                       = false) [a; b; c]) [a; b; c].
Proof.
  intros a b c. apply (nd_sort_first_front [a; b; c]).
  apply (bool_decide_unpack _). vm_compute. exact I.
Defined.

End SMSEMOAMore.

(** ** More facts about the migration proxy *)

Module ProxyMore.
Import IBEA Proxy PyFacts.

(** *** [deport_emigrants] *)

Lemma remove_vector_Ok (x : vector) (cp : list vector) :
  x ∈ cp →
  ∃ cp', remove (fun a b : vector => bool_decide (a = b)) x cp = Ok cp'
         ∧ cp ≡ₚ x :: cp'.
Proof.
  induction cp as [|y cp IH]; [by intros ?%elem_of_nil |].
  intros Hin. simpl. case_bool_decide as Hy.
  - subst y. by exists cp.
  - apply elem_of_cons in Hin as [-> | Hin]; [done |].
    destruct (IH Hin) as (cp' & -> & Hp). exists (y :: cp'). split; [done |].
    rewrite Hp. apply Permutation_swap.
Qed.

Lemma for_each_cons {A S} (body : A → S → result S) x l s :
  for_each body (x :: l) s = body x s ≫= for_each body l.
Proof. done. Qed.

Lemma scan_individual x cp acc :
  scan (PyIndividual x) (cp, acc)
  = if bool_decide (v x ∈ cp) then
      remove (fun a b : vector => bool_decide (a = b)) (v x) cp
        ≫= fun cp1 => Ok (cp1, acc ++ [PyIndividual x])
    else Ok (cp, acc).
Proof. done. Qed.

Lemma scan_loop (inds : list Individual) (cp : list vector)
  (acc : list pyobject) :
  ∃ out kept cp',
    for_each scan (PyIndividual <$> inds) (cp, acc)
    = Ok (cp', acc ++ (PyIndividual <$> out))
    ∧ out `sublist_of` inds
    ∧ inds ≡ₚ out ++ kept
    ∧ cp ≡ₚ (v <$> out) ++ cp'
    ∧ Forall (fun x => v x ∉ cp') kept.
Proof.
  revert cp acc. induction inds as [|x inds IH]; intros cp acc.
  - exists [], [], cp. simpl. by rewrite app_nil_r.
  - rewrite fmap_cons, for_each_cons, scan_individual.
    case_bool_decide as Hin.
    + destruct (remove_vector_Ok _ _ Hin) as (cp1 & -> & Hp1).
      cbn [mbind result_bind].
      destruct (IH cp1 (acc ++ [PyIndividual x]))
        as (out & kept & cp' & -> & Hsub & Hperm & Hcp & Hkept).
      exists (x :: out), kept, cp'. split_and!.
      * by rewrite <- app_assoc.
      * by apply sublist_skip.
      * simpl. by rewrite <- Hperm.
      * simpl. by rewrite <- Hcp.
      * done.
    + cbn [mbind result_bind]. destruct (IH cp acc)
        as (out & kept & cp' & -> & Hsub & Hperm & Hcp & Hkept).
      exists out, (x :: kept), cp'. split_and!.
      * done.
      * by apply sublist_cons.
      * rewrite <- Permutation_middle. by rewrite <- Hperm.
      * done.
      * apply Forall_cons. split; [| done].
        intros Hx. apply Hin. rewrite Hcp. apply elem_of_app. by right.
Qed.

Lemma remove_cons {A} (eqb : A → A → bool) x y l :
  remove eqb x (y :: l)
  = if eqb y x then Ok l else remove eqb x l ≫= fun l' => Ok (y :: l').
Proof. done. Qed.

Lemma remove_ident_Ok (x : Individual) (l : list Individual) :
  ident x ∈ ident <$> l →
  ∃ y l', remove py_eq (PyIndividual x) (PyIndividual <$> l)
          = Ok (PyIndividual <$> l')
          ∧ ident y = ident x ∧ l ≡ₚ y :: l' ∧ l' `sublist_of` l.
Proof.
  induction l as [|z l IH]; [by intros ?%elem_of_nil |].
  intros Hin. rewrite fmap_cons, remove_cons.
  change (py_eq (PyIndividual z) (PyIndividual x))
    with (bool_decide (ident z = ident x)).
  case_bool_decide as Hz.
  - exists z, l. split_and!; [done | done | done | by apply sublist_cons].
  - rewrite fmap_cons in Hin.
    apply elem_of_cons in Hin as [Heq | Hin]; [by destruct Hz |].
    destruct (IH Hin) as (y & l' & -> & Hy & Hp & Hsub).
    exists y, (z :: l'). split_and!; [done | done | | by apply sublist_skip].
    rewrite Hp. apply Permutation_swap.
Qed.

Lemma remove_loop (out l : list Individual) :
  ident <$> out ⊆+ ident <$> l →
  ∃ taken rest,
    for_each (remove py_eq) (PyIndividual <$> out) (PyIndividual <$> l)
    = Ok (PyIndividual <$> rest)
    ∧ rest `sublist_of` l
    ∧ l ≡ₚ taken ++ rest
    ∧ Forall2 (fun a b => ident a = ident b) taken out.
Proof.
  revert l. induction out as [|x out IH]; intros l Hsub.
  - by exists [], l.
  - rewrite fmap_cons in Hsub.
    assert (ident x ∈ ident <$> l) as Hin.
    { eapply elem_of_submseteq; [| exact Hsub]. by left. }
    destruct (remove_ident_Ok _ _ Hin) as (y & l' & Hrem & Hy & Hp & Hsl).
    rewrite fmap_cons, for_each_cons, Hrem. cbn [mbind result_bind].
    destruct (IH l') as (taken & rest & -> & Hrs & Hpt & Hids).
    { apply submseteq_cons_l in Hsub as (k & Hk & Hsub).
      rewrite Hp, fmap_cons, Hy in Hk.
      apply Permutation_cons_inv in Hk. by rewrite Hk. }
    exists (y :: taken), rest. split_and!.
    + done.
    + by etrans.
    + rewrite Hp. simpl. by rewrite <- Hpt.
    + by constructor.
Qed.

Lemma same_idents_same (l taken out : list Individual) :
  NoDup (ident <$> l) →
  Forall (fun x => x ∈ l) taken → Forall (fun x => x ∈ l) out →
  Forall2 (fun a b => ident a = ident b) taken out → taken = out.
Proof.
  intros Hnd Ht Ho Hids. revert Ht Ho.
  induction Hids as [|a b taken out Hab Hids IH]; [done |].
  intros [Ha Ht]%Forall_cons [Hb Ho]%Forall_cons. f_equal; [| by apply IH].
  clear -Hnd Ha Hb Hab.
  induction l as [|z l IHl]; simpl in *; [by apply elem_of_nil in Ha |].
  apply NoDup_cons in Hnd as [Hz Hnd].
  apply elem_of_cons in Ha as [-> | Ha]; apply elem_of_cons in Hb as [-> | Hb].
  - done.
  - destruct Hz. rewrite Hab. by apply list_elem_of_fmap_2.
  - destruct Hz. rewrite <- Hab. by apply list_elem_of_fmap_2.
  - by apply IHl.
Qed.

Lemma deport_emigrants_spec (self : IBEAImgaProxy) (immigrants : list vector)
  (h : store) (inds : list Individual) :
  deref h (individuals self) = PyIndividual <$> inds →
  ∃ out rest unmatched,
    deport_emigrants self immigrants h
    = Ok (PyIndividual <$> out,
          <[individuals self := PyIndividual <$> rest]> h)
    ∧ out `sublist_of` inds
    ∧ rest `sublist_of` inds
    ∧ immigrants ≡ₚ (v <$> out) ++ unmatched
    ∧ (NoDup (ident <$> inds) →
       inds ≡ₚ out ++ rest ∧ Forall (fun x => v x ∉ unmatched) rest).
Proof.
  intros Hpop. unfold deport_emigrants. rewrite Hpop.
  destruct (scan_loop inds immigrants [])
    as (out & kept & cp' & -> & Hsub & Hperm & Hcp & Hkept).
  simpl.
  destruct (remove_loop out inds) as (taken & rest & -> & Hrs & Hpt & Hids).
  { apply sublist_submseteq. by apply fmap_sublist. }
  simpl. exists out, rest, cp'. split_and!; try done.
  intros Hnd.
  assert (taken = out) as ->.
  { apply (same_idents_same inds); [done | | | done].
    - apply Forall_forall. intros x Hx. rewrite Hpt. apply elem_of_app. by left.
    - apply Forall_forall. intros x Hx. by eapply elem_of_sublist. }
  split; [done |].
  rewrite Hpt in Hperm. apply Permutation_app_inv_l in Hperm. by rewrite Hperm.
Qed.

(** X20.  On a population of individuals that are distinct objects,
    [deport_emigrants] returns: it splits the population, keeping the order
    on both sides, into the individuals it hands out and those it leaves in
    the shared list; the vectors handed out are matched one to one with
    immigrants, and no individual left behind carries an unmatched
    immigrant vector. *)
Theorem deport_emigrants_splits (self : IBEAImgaProxy)
  (immigrants : list vector) (h : store) (inds : list Individual) :
  deref h (individuals self) = PyIndividual <$> inds →
  NoDup (ident <$> inds) →
  ∃ out rest unmatched,
    deport_emigrants self immigrants h
    = Ok (PyIndividual <$> out,
          <[individuals self := PyIndividual <$> rest]> h)
    ∧ out `sublist_of` inds
    ∧ rest `sublist_of` inds
    ∧ inds ≡ₚ out ++ rest
    ∧ immigrants ≡ₚ (v <$> out) ++ unmatched
    ∧ Forall (fun x => v x ∉ unmatched) rest.
Proof.
  intros Hpop Hnd.
  destruct (deport_emigrants_spec self immigrants h inds Hpop)
    as (out & rest & unmatched & -> & Hso & Hsr & Him & Hsplit).
  destruct (Hsplit Hnd) as [Hperm Hrest].
  by exists out, rest, unmatched.
Qed.

Lemma deport_emigrants_splits_witness :
  let a := mkIndividual 0 [1%R] true in
  let b := mkIndividual 1 [2%R] true in
  let h : store := {[ 0%nat := [PyIndividual a; PyIndividual b] ]} in
  ∃ out rest unmatched,
    deport_emigrants (mkProxy 0 0) [[2%R]; [3%R]] h
    = Ok (PyIndividual <$> out, <[0%nat := PyIndividual <$> rest]> h)
    ∧ out `sublist_of` [a; b]
    ∧ rest `sublist_of` [a; b]
    ∧ [a; b] ≡ₚ out ++ rest
    ∧ [[2%R]; [3%R]] ≡ₚ (v <$> out) ++ unmatched
    ∧ Forall (fun x => v x ∉ unmatched) rest.
Proof.
  intros a b h.
  apply (deport_emigrants_splits (mkProxy 0 0) [[2%R]; [3%R]] h [a; b]).
  - reflexivity.
  - apply (bool_decide_unpack _). vm_compute. exact I.
Defined.

Lemma individuals_or_vector (l : list pyobject) :
  (∃ inds, l = PyIndividual <$> inds) ∨ (∃ x, PyVector x ∈ l).
Proof.
  induction l as [|p l IH]; [left; by exists [] |].
  destruct IH as [[inds ->] | [y Hy]]; [| right; exists y; by right].
  destruct p as [x | x].
  - left. by exists (x :: inds).
  - right. exists x. by left.
Qed.

Lemma scan_raises (l : list pyobject) (x : vector)
  (acc : list vector * list pyobject) :
  PyVector x ∈ l → for_each scan l acc = Raise AttributeError.
Proof.
  revert acc. induction l as [|p l IH]; intros [cp acc];
    [by intros ?%elem_of_nil |].
  intros Hin. rewrite for_each_cons. destruct p as [y | y]; [| done].
  apply elem_of_cons in Hin as [? | Hin]; [done |].
  rewrite scan_individual. case_bool_decide as Hy.
  - destruct (remove_vector_Ok _ _ Hy) as (cp1 & -> & _).
    cbn [mbind result_bind]. by apply IH.
  - cbn [mbind result_bind]. by apply IH.
Qed.

(** X21.  [deport_emigrants] returns exactly when every element of the
    shared list is an individual; a bare vector in the list makes it raise
    [AttributeError], whatever the immigrants. *)
Theorem deport_emigrants_outcome (self : IBEAImgaProxy)
  (immigrants : list vector) (h : store) :
  match deport_emigrants self immigrants h with
  | Ok _ => Forall (fun p => ∃ x, p = PyIndividual x)
              (deref h (individuals self))
  | Raise e => e = AttributeError
               ∧ ∃ x, PyVector x ∈ deref h (individuals self)
  end.
Proof.
  destruct (individuals_or_vector (deref h (individuals self)))
    as [[inds Hinds] | [x Hx]].
  - destruct (deport_emigrants_spec self immigrants h inds Hinds)
      as (out & rest & unmatched & -> & _).
    rewrite Hinds. apply Forall_fmap, Forall_forall. intros x _. by exists x.
  - unfold deport_emigrants. rewrite (scan_raises _ x) by done.
    split; [done | by exists x].
Qed.

(** X22.  Handing the deported individuals back through
    [assimilate_immigrants] restores the population up to order: the shared
    list holds the individuals left behind followed by those deported, and
    no other list object has changed. *)
Theorem deport_then_assimilate (self : IBEAImgaProxy)
  (immigrants : list vector) (h h' : store) (inds : list Individual)
  (emigrants : list pyobject) :
  deref h (individuals self) = PyIndividual <$> inds →
  NoDup (ident <$> inds) →
  deport_emigrants self immigrants h = Ok (emigrants, h') →
  deref (assimilate_immigrants self emigrants h') (individuals self)
  = deref h' (individuals self) ++ emigrants
  ∧ deref (assimilate_immigrants self emigrants h') (individuals self)
    ≡ₚ deref h (individuals self)
  ∧ ∀ l, l ≠ individuals self →
         assimilate_immigrants self emigrants h' !! l = h !! l.
Proof.
  intros Hpop Hnd Hdep.
  destruct (deport_emigrants_spec self immigrants h inds Hpop)
    as (out & rest & unmatched & Heq & _ & _ & _ & Hsplit).
  destruct (Hsplit Hnd) as [Hperm _].
  rewrite Heq in Hdep. injection Hdep as <- <-.
  unfold assimilate_immigrants, deref, store in *.
  rewrite !lookup_insert_eq. simpl. split_and!.
  - done.
  - rewrite Hpop, <- fmap_app. apply fmap_Permutation.
    rewrite Hperm. apply Permutation_app_comm.
  - intros l Hl. by rewrite !lookup_insert_ne.
Qed.

Lemma deport_then_assimilate_witness :
  let a := mkIndividual 0 [1%R] true in
  let b := mkIndividual 1 [2%R] true in
  let h : store := {[ 0%nat := [PyIndividual a; PyIndividual b] ]} in
  let h' : store := <[0%nat := [PyIndividual b]]> h in
  deref (assimilate_immigrants (mkProxy 0 0) [PyIndividual a] h') 0
  = deref h' 0 ++ [PyIndividual a]
  ∧ deref (assimilate_immigrants (mkProxy 0 0) [PyIndividual a] h') 0
    ≡ₚ deref h 0
  ∧ ∀ l, l ≠ 0%nat →
         assimilate_immigrants (mkProxy 0 0) [PyIndividual a] h' !! l = h !! l.
Proof.
  intros a b h h'.
  apply (deport_then_assimilate (mkProxy 0 0) [[1%R]] h h' [a; b]).
  - reflexivity.
  - apply (bool_decide_unpack _). vm_compute. exact I.
  - unfold deport_emigrants.
    change (deref h (individuals (mkProxy 0 0)))
      with [PyIndividual a; PyIndividual b].
    rewrite for_each_cons, scan_individual.
    rewrite bool_decide_true by (by left).
    rewrite remove_cons. change (v a) with [1%R].
    rewrite bool_decide_true by done. cbn [mbind result_bind].
    rewrite for_each_cons, scan_individual.
    rewrite bool_decide_false by (by intros ?%elem_of_nil).
    cbn [mbind result_bind for_each app].
    rewrite remove_cons.
    change (py_eq (PyIndividual a) (PyIndividual a))
      with (bool_decide (0%nat = 0%nat)).
    by rewrite bool_decide_true by done.
Defined.

End ProxyMore.
